(** * Software reciprocal square root for RV32I: primitives and estimator

    Shallow embedding of [3-pipeline/csrc/rsqrt_fast.c].  The target is
    RV32I, so [uint32_t], [unsigned int] and [unsigned long] are all 32-bit
    unsigned words; they are modelled as [Z] in [0, 2^32) with the
    wrap-around of every operation written out. *)

From Stdlib Require Import Reals Lra ZArith Lia List Bool.
Import ListNotations.
Local Open Scope Z_scope.

(** ** 32-bit unsigned words *)

Module U32.

Definition modulus : Z := 2 ^ 32.
Definition max : Z := 4294967295.

Definition wrap (z : Z) : Z := z mod modulus.

Definition in_range (z : Z) : Prop := 0 <= z < modulus.

Definition add (a b : Z) : Z := wrap (a + b).
Definition sub (a b : Z) : Z := wrap (a - b).
Definition mul (a b : Z) : Z := wrap (a * b).
Definition shl (a n : Z) : Z := wrap (Z.shiftl a n).
Definition shr (a n : Z) : Z := Z.shiftr a n.

(** C comparison results are the [int] 0 or 1. *)
Definition b2z (b : bool) : Z := if b then 1 else 0.

End U32.

(** ** An error monad for the undefined behaviours of C

    A shift by an amount outside [0, 32) and an array read outside the
    array are undefined in C.  Code whose shift amounts or indices are
    computed at run time is written in [option]: [None] is reached exactly
    when such an operation is executed. *)

Definition bind {A B : Type} (m : option A) (k : A -> option B) : option B :=
  match m with
  | Some a => k a
  | None => None
  end.

Notation "x <- m ;; k" := (bind m (fun x => k))
  (at level 61, m at next level, right associativity).

Definition shl_checked (a n : Z) : option Z :=
  if (0 <=? n) && (n <? 32) then Some (U32.shl a n) else None.

Definition shr_checked (a n : Z) : option Z :=
  if (0 <=? n) && (n <? 32) then Some (U32.shr a n) else None.

(** [arr[i]] for a constant array [arr] of words. *)
Definition read (arr : list Z) (i : Z) : option Z :=
  if (0 <=? i) && (i <? Z.of_nat (length arr)) then nth_error arr (Z.to_nat i)
  else None.

(** ** clz *)

Definition clz (x : Z) : Z :=
  let r := 0 in
  let c := Z.shiftl (U32.b2z (x <? 0x00010000)) 4 in
  let r := r + c in
  let x := U32.shl x c in
  let c := Z.shiftl (U32.b2z (x <? 0x01000000)) 3 in
  let r := r + c in
  let x := U32.shl x c in
  let c := Z.shiftl (U32.b2z (x <? 0x10000000)) 2 in
  let r := r + c in
  let x := U32.shl x c in
  let c := Z.shiftl (U32.b2z (x <? 0x40000000)) 1 in
  let r := r + c in
  let x := U32.shl x c in
  let c := U32.b2z (x <? 0x80000000) in
  let r := r + c in
  let x := U32.shl x c in
  let r := r + U32.b2z (x =? 0) in
  r.

(** ** udiv and umod: restoring long division, bit 31 down to bit 0 *)

(** One iteration of the loop body of [udiv] at bit index [i]. *)
Definition udiv_body (dividend divisor : Z) (i : Z) (qr : Z * Z) : Z * Z :=
  let '(quotient, remainder) := qr in
  let remainder := U32.shl remainder 1 in
  let remainder := Z.lor remainder (Z.land (U32.shr dividend i) 1) in
  if remainder >=? divisor
  then (Z.lor quotient (U32.shl 1 i), U32.sub remainder divisor)
  else (quotient, remainder).

(** [udiv_loop n] runs the iterations [i = n-1, ..., 0]. *)
Fixpoint udiv_loop (n : nat) (dividend divisor : Z) (qr : Z * Z) : Z * Z :=
  match n with
  | O => qr
  | S i => udiv_loop i dividend divisor
             (udiv_body dividend divisor (Z.of_nat i) qr)
  end.

Definition udiv (dividend divisor : Z) : Z :=
  if divisor =? 0 then 0
  else fst (udiv_loop 32 dividend divisor (0, 0)).

Definition umod_body (dividend divisor : Z) (i : Z) (remainder : Z) : Z :=
  let remainder := U32.shl remainder 1 in
  let remainder := Z.lor remainder (Z.land (U32.shr dividend i) 1) in
  if remainder >=? divisor
  then U32.sub remainder divisor
  else remainder.

Fixpoint umod_loop (n : nat) (dividend divisor : Z) (remainder : Z) : Z :=
  match n with
  | O => remainder
  | S i => umod_loop i dividend divisor
             (umod_body dividend divisor (Z.of_nat i) remainder)
  end.

Definition umod (dividend divisor : Z) : Z :=
  if divisor =? 0 then 0
  else umod_loop 32 dividend divisor 0.

(** ** umul: shift-and-add multiplication

    The [while (b)] loop has no syntactic bound, so it is run on fuel;
    [None] means the fuel ran out before [b] reached 0. *)

Fixpoint umul_loop (fuel : nat) (a b result : Z) : option Z :=
  if b =? 0 then Some result
  else
    match fuel with
    | O => None
    | S fuel' =>
        let result := if Z.land b 1 =? 0 then result else U32.add result a in
        umul_loop fuel' (U32.shl a 1) (U32.shr b 1) result
    end.

Definition umul_fuel : nat := 32.

Definition umul (a b : Z) : option Z := umul_loop umul_fuel a b 0.

(** ** The seed table *)

Definition rsqrt_table : list Z :=
  [ 65536; 46341; 32768; 23170; 16384; 11585; 8192; 5793; 4096; 2896; 2048;
    1448;  1024;  724;   512;   362;   256;   181;  128;  90;   64;   45;
    32;    23;    16;    11;    8;     6;     4;    3;    2;    1 ].

(** ** mul32x32: 32x32 -> 64 multiplication by 16-bit halves *)

Definition mul32x32 (a b : Z) : Z * Z :=
  let a_lo := Z.land a 0xFFFF in
  let a_hi := U32.shr a 16 in
  let b_lo := Z.land b 0xFFFF in
  let b_hi := U32.shr b 16 in
  let p0 := U32.mul a_lo b_lo in
  let p1 := U32.mul a_lo b_hi in
  let p2 := U32.mul a_hi b_lo in
  let p3 := U32.mul a_hi b_hi in
  let mid := U32.add (U32.add (U32.shr p0 16) (Z.land p1 0xFFFF))
                     (Z.land p2 0xFFFF) in
  let lo_res := Z.lor (Z.land p0 0xFFFF) (U32.shl mid 16) in
  let hi_res := U32.add (U32.add (U32.add p3 (U32.shr p1 16)) (U32.shr p2 16))
                        (U32.shr mid 16) in
  (hi_res, lo_res).

(** ** One Newton step in Q16 *)

Definition newton_step_q16_inline (y x : Z) : Z :=
  let '(y2_hi, y2_lo) := mul32x32 y y in
  let '(hi1, lo1) := mul32x32 x y2_hi in
  let termA := U32.shl lo1 16 in
  let '(hi2, lo2) := mul32x32 x y2_lo in
  let termB := Z.lor (U32.shl hi2 16) (U32.shr lo2 16) in
  let xy2 := U32.add termA termB in
  let term := U32.sub (U32.shl 3 16) xy2 in
  let '(hi, lo) := mul32x32 y term in
  let lo_plus := U32.add lo (U32.shl 1 16) in
  let hi_plus := U32.add hi (U32.b2z (lo_plus <? lo)) in
  Z.lor (U32.shl hi_plus 15) (U32.shr lo_plus 17).

(** ** rsqrt *)

(** [exp = 31u - clz(x)]. *)
Definition rsqrt_exp (x : Z) : Z := U32.sub 31 (clz x).

(** The shift applied to [x - (1u << exp)] to form the 16-bit fraction:
    [inl n] is a right shift by [n], [inr n] a left shift by [n]. *)
Definition fraction_shift (exp : Z) : Z + Z :=
  if exp >=? 16 then inl (U32.sub exp 16) else inr (U32.sub 16 exp).

Definition rsqrt_fraction (x exp : Z) : option Z :=
  one <- shl_checked 1 exp ;;
  match fraction_shift exp with
  | inl n => shr_checked (U32.sub x one) n
  | inr n => shl_checked (U32.sub x one) n
  end.

(** [(exp < 31u) ? rsqrt_table[exp + 1u] : 1u]. *)
Definition rsqrt_y_next (exp : Z) : option Z :=
  if exp <? 31 then read rsqrt_table (U32.add exp 1) else Some 1.

(** The interpolated seed, the value of [y] before the Newton step. *)
Definition rsqrt_seed (x : Z) : option Z :=
  let exp := rsqrt_exp x in
  y_base <- read rsqrt_table exp ;;
  y_next <- rsqrt_y_next exp ;;
  fraction <- rsqrt_fraction x exp ;;
  p <- umul (U32.sub y_base y_next) fraction ;;
  Some (U32.sub y_base (U32.shr p 16)).

Definition rsqrt (x : Z) : option Z :=
  if x =? 0 then Some 0xFFFFFFFF
  else if x =? U32.max then Some 1
  else
    y <- rsqrt_seed x ;;
    Some (newton_step_q16_inline y x).


(** ** Notions used to state the properties *)

(** Loop invariant of [udiv] before the iterations [i = n-1, ..., 0]: the
    bits [31 .. n] of the dividend have been divided by the divisor, and the
    quotient bits found so far sit at positions [n] and above. *)
Definition div_inv (dividend divisor : Z) (n : nat) (qr : Z * Z) : Prop :=
  exists k, 0 <= k
    /\ fst qr = k * 2 ^ Z.of_nat n
    /\ dividend / 2 ^ Z.of_nat n = k * divisor + snd qr
    /\ 0 <= snd qr < divisor.

(** [f x, f (x+1), ..., f (x+n-1)] are all defined and form a
    non-increasing run that starts at or below [prev]. *)
Fixpoint antitone_run (f : Z -> option Z) (n : nat) (x prev : Z) : bool :=
  match n with
  | O => true
  | S n' =>
      match f x with
      | Some y => (y <=? prev) && antitone_run f n' (x + 1) y
      | None => false
      end
  end.

(** The real number [2^16 / sqrt (2^e)] that the table entry at index [e]
    approximates, and its denominator. *)
Definition seed_root (e : Z) : R := sqrt (IZR (2 ^ e)).

Definition real_seed (e : Z) : R := (65536 / seed_root e)%R.

(** [n] is a nearest integer of the real number [r]. *)
Definition nearest_integer (n : Z) (r : R) : Prop :=
  (Rabs (IZR n - r) <= 1 / 2)%R.

(** Decision procedure for [nearest_integer n (real_seed e)], on integers.
    For [n >= 1] the real inequality reads
    [(2n-1) * sqrt (2^e) <= 2^17 <= (2n+1) * sqrt (2^e)] with all three
    members positive, so it is equivalent to its square. *)
Definition nearest_seed (e n : Z) : bool :=
  (1 <=? n)
  && ((2 * n - 1) ^ 2 * 2 ^ e <=? 2 ^ 34)
  && (2 ^ 34 <=? (2 * n + 1) ^ 2 * 2 ^ e).

(** Adjacent entries of a list never increase. *)
Fixpoint non_increasing (l : list Z) : bool :=
  match l with
  | a :: (b :: _) as tl => (b <=? a) && non_increasing tl
  | _ => true
  end.

(** ** __mulsi3, the multiplication helper GCC calls on RV32I *)

Definition __mulsi3 (a b : Z) : option Z := umul a b.

(** ** The value the Newton step is meant to compute

    [newton_term y x] is [3 * 2^16 - (x * y^2 >> 16)] in 32-bit arithmetic,
    with the product [x * y^2] taken exactly. *)
Definition newton_term (y x : Z) : Z :=
  U32.wrap (3 * 2 ^ 16 - (x * y * y) / 2 ^ 16).

(** ** Per-bucket facts about the seed table

    For the bucket [2^e <= x < 2^(e+1)], with [y_base] and [y_next] the two
    seeds the interpolation uses: the seeds are ordered and at most [2^16];
    [x * y^2] stays below [3 * 2^32] for every [y <= y_base], so the term
    [3 * 2^16 - (x * y^2 >> 16)] does not wrap; [y * term] is at least
    [2^16] for every [y >= y_next]; and from bucket 2 on the seeds are at
    most [2^15]. *)
Definition bucket_ok (e : Z) : bool :=
  match read rsqrt_table e, rsqrt_y_next e with
  | Some y_base, Some y_next =>
      (1 <=? y_next) && (y_next <=? y_base) && (y_base <=? 2 ^ 16)
      && ((2 ^ (e + 1) - 1) * y_base * y_base <? 3 * 2 ^ 32)
      && (2 ^ 16 <=? y_next * (3 * 2 ^ 16
                               - ((2 ^ (e + 1) - 1) * y_base * y_base)
                                 / 2 ^ 16))
      && ((e <? 2) || (y_base <=? 2 ^ 15))
  | _, _ => false
  end.

(** ** memcpy

    The core runs bare metal on one flat address space: memory is a map
    from 32-bit addresses to bytes, and pointer increments wrap like any
    other 32-bit addition. *)

Definition memory : Type := Z -> Z.

Definition store (m : memory) (a v : Z) : memory :=
  fun a' => if a' =? a then v else m a'.

(** [while (n--) *d++ = *s++;] with [n] iterations left. *)
Fixpoint memcpy_loop (n : nat) (m : memory) (d s : Z) : memory :=
  match n with
  | O => m
  | S n' => memcpy_loop n' (store m d (m s)) (U32.add d 1) (U32.add s 1)
  end.

(** The memory after the call, and the returned pointer. *)
Definition memcpy (m : memory) (dest src n : Z) : memory * Z :=
  (memcpy_loop (Z.to_nat n) m dest src, dest).

(** ** print_hex and print_dec

    Both fill the 20-byte stack buffer [buf] backwards from its last byte
    and hand the filled tail to [printstr].  The buffer is a list of bytes
    and [p] an index into it; a store outside the buffer is undefined and
    gives [None].  What the function prints is the byte string passed to
    [printstr]. *)

Definition buf_size : Z := 20.

(** Conversion of an [int] to [char] on assignment. *)
Definition to_char (c : Z) : Z := c mod 256.

Fixpoint list_set (l : list Z) (i : nat) (c : Z) : list Z :=
  match l, i with
  | [], _ => []
  | _ :: t, O => c :: t
  | h :: t, S j => h :: list_set t j c
  end.

(** [*p = c]. *)
Definition poke (buf : list Z) (p c : Z) : option (list Z) :=
  if (0 <=? p) && (p <? Z.of_nat (length buf))
  then Some (list_set buf (Z.to_nat p) (to_char c))
  else None.

(** [printstr(p, len)]: the [len] bytes from index [p] on go to stdout. *)
Definition printstr (buf : list Z) (p len : Z) : option (list Z) :=
  if (0 <=? p) && (0 <=? len) && (p + len <=? Z.of_nat (length buf))
  then Some (firstn (Z.to_nat len) (skipn (Z.to_nat p) buf))
  else None.

(** The [while (val > 0)] loops run on fuel, like the one of [umul]. *)
Definition print_fuel : nat := 32.

Fixpoint print_hex_loop (fuel : nat) (buf : list Z) (p val : Z)
  : option (list Z * Z) :=
  if val >? 0 then
    match fuel with
    | O => None
    | S fuel' =>
        let digit := Z.land val 0xf in
        buf <- poke buf p (if digit <? 10 then 48 + digit
                           else 97 + digit - 10) ;;
        print_hex_loop fuel' buf (p - 1) (U32.shr val 4)
    end
  else Some (buf, p).

(** [buf] is the content of the uninitialised buffer on entry. *)
Definition print_hex (buf : list Z) (val : Z) : option (list Z) :=
  let p := buf_size - 1 in
  buf <- poke buf p 10 ;;
  let p := p - 1 in
  st <- (if val =? 0
         then buf <- poke buf p 48 ;; Some (buf, p - 1)
         else print_hex_loop print_fuel buf p val) ;;
  let p := snd st + 1 in
  printstr (fst st) p (buf_size - p).

Fixpoint print_dec_loop (fuel : nat) (buf : list Z) (p val : Z)
  : option (list Z * Z) :=
  if val >? 0 then
    match fuel with
    | O => None
    | S fuel' =>
        buf <- poke buf p (48 + umod val 10) ;;
        print_dec_loop fuel' buf (p - 1) (udiv val 10)
    end
  else Some (buf, p).

Definition print_dec (buf : list Z) (val : Z) : option (list Z) :=
  let p := buf_size - 1 in
  buf <- poke buf p 10 ;;
  let p := p - 1 in
  st <- (if val =? 0
         then buf <- poke buf p 48 ;; Some (buf, p - 1)
         else print_dec_loop print_fuel buf p val) ;;
  let p := snd st + 1 in
  printstr (fst st) p (buf_size - p).

(** Reading numerals back.  [digits_msb base n val] lists the digits of
    [val] in base [base], most significant first, for a value of at most
    [n] digits. *)
Fixpoint digits_msb (base : Z) (n : nat) (val : Z) : list Z :=
  match n with
  | O => []
  | S n' =>
      if val =? 0 then []
      else digits_msb base n' (val / base) ++ [val mod base]
  end.

Definition hex_char (d : Z) : Z := if d <? 10 then 48 + d else 97 + d - 10.

Definition dec_char (d : Z) : Z := 48 + d.

Definition hex_digit_value (c : Z) : option Z :=
  if (48 <=? c) && (c <=? 57) then Some (c - 48)
  else if (97 <=? c) && (c <=? 102) then Some (c - 97 + 10)
  else None.

Definition dec_digit_value (c : Z) : option Z :=
  if (48 <=? c) && (c <=? 57) then Some (c - 48) else None.

Definition parse_digits (base : Z) (digit_value : Z -> option Z)
  (s : list Z) : option Z :=
  fold_left
    (fun acc c => a <- acc ;; d <- digit_value c ;; Some (a * base + d))
    s (Some 0).

(** The loop shared by [print_hex] and [print_dec], over the way a digit
    character is taken from [val] and the way [val] is reduced. *)
Fixpoint digit_loop (char_of next : Z -> Z) (fuel : nat) (buf : list Z)
  (p val : Z) : option (list Z * Z) :=
  if val >? 0 then
    match fuel with
    | O => None
    | S fuel' =>
        buf <- poke buf p (char_of val) ;;
        digit_loop char_of next fuel' buf (p - 1) (next val)
    end
  else Some (buf, p).

(** ** Notions used to bound the rises of the estimate

    The seed never increases with [x], and for a fixed seed the Newton step
    never increases with [x]; so the estimate can only rise where the seed
    changes.  [rise_walk] goes through the inputs [a .. last] one run of
    equal seeds at a time and checks that the estimate at the start of each
    run is at most one unit above [m], the least estimate met so far. *)

Definition same_seed (a b : Z) : bool :=
  match rsqrt_seed a, rsqrt_seed b with
  | Some y, Some y' => y =? y'
  | _, _ => false
  end.

(** A guess for the last input that has the seed of [a]; [run_end] keeps it
    only after checking it. *)
Definition seed_run_end (a : Z) : Z :=
  let e := rsqrt_exp a in
  match read rsqrt_table e, rsqrt_y_next e, rsqrt_seed a with
  | Some y_base, Some y_next, Some y =>
      let diff := y_base - y_next in
      let f := if diff =? 0 then 65535
               else Z.min 65535 (((y_base - y + 1) * 65536 - 1) / diff) in
      if e <? 16 then 2 ^ e + f / 2 ^ (16 - e)
      else 2 ^ e + (f + 1) * 2 ^ (e - 16) - 1
  | _, _, _ => a
  end.

Definition run_end (a last : Z) : Z :=
  let b := Z.min last (seed_run_end a) in
  if a <=? b then (if same_seed a b then b else a) else a.

Fixpoint rise_walk (fuel : nat) (a last m : Z) : bool :=
  if last <? a then true
  else
    match fuel with
    | O => false
    | S fuel' =>
        let b := run_end a last in
        match rsqrt a, rsqrt b with
        | Some ra, Some rb =>
            (ra <=? m + 1) && rise_walk fuel' (b + 1) last (Z.min m rb)
        | _, _ => false
        end
    end.

(** The value of the Newton step when nothing wraps. *)
Definition newton_value (y x : Z) : Z :=
  (y * (3 * 2 ^ 16 - (x * y * y) / 2 ^ 16) + 2 ^ 16) / 2 ^ 17.

(** * Proofs *)

(** ** Bit operations as arithmetic *)

Section BitArith.

Lemma land_FFFF (a : Z) : Z.land a 0xFFFF = a mod 2 ^ 16.
Proof.
  change 0xFFFF with (Z.ones 16). apply Z.land_ones. lia.
Qed.

Lemma land_1 (a : Z) : Z.land a 1 = a mod 2.
Proof.
  change 1 with (Z.ones 1) at 1. rewrite Z.land_ones by lia. reflexivity.
Qed.

Lemma shr_div (a n : Z) : 0 <= n -> U32.shr a n = a / 2 ^ n.
Proof.
  intros Hn. unfold U32.shr. apply Z.shiftr_div_pow2; assumption.
Qed.

Lemma shl_mul (a n : Z) : 0 <= n -> U32.shl a n = (a * 2 ^ n) mod 2 ^ 32.
Proof.
  intros Hn. unfold U32.shl, U32.wrap, U32.modulus.
  rewrite Z.shiftl_mul_pow2 by assumption. reflexivity.
Qed.

Lemma testbit_above (a n i : Z) :
  0 <= a < 2 ^ n -> n <= i -> Z.testbit a i = false.
Proof.
  intros [Ha Hlt] Hi.
  destruct (Z.eq_dec a 0) as [->|Hnz]; [apply Z.bits_0|].
  apply Z.bits_above_log2; [assumption|].
  assert (Z.log2 a < n); [|lia].
  apply Z.log2_lt_pow2; lia.
Qed.

Lemma land_low_high (a b n : Z) :
  0 <= n -> 0 <= a < 2 ^ n -> Z.land a (b * 2 ^ n) = 0.
Proof.
  intros Hn Ha. apply Z.bits_inj'. intros i Hi.
  rewrite Z.land_spec, Z.bits_0.
  destruct (Z_lt_le_dec i n) as [Hlt|Hge].
  - rewrite Z.mul_pow2_bits_low by assumption. apply andb_false_r.
  - rewrite (testbit_above a n i) by assumption. reflexivity.
Qed.

(** An [|] whose operands occupy disjoint bit ranges is an addition. *)
Lemma lor_low_high (a b n : Z) :
  0 <= n -> 0 <= a < 2 ^ n -> Z.lor a (b * 2 ^ n) = a + b * 2 ^ n.
Proof.
  intros Hn Ha.
  pose proof (Z.add_lor_land a (b * 2 ^ n)) as H.
  rewrite land_low_high in H by assumption. lia.
Qed.

Lemma lor_high_low (a b n : Z) :
  0 <= n -> 0 <= a < 2 ^ n -> Z.lor (b * 2 ^ n) a = b * 2 ^ n + a.
Proof.
  intros Hn Ha. rewrite Z.lor_comm, lor_low_high by assumption. lia.
Qed.

Lemma wrap_small (z : Z) : U32.in_range z -> U32.wrap z = z.
Proof.
  unfold U32.in_range, U32.wrap. intros H. apply Z.mod_small. assumption.
Qed.

Lemma wrap_range (z : Z) : U32.in_range (U32.wrap z).
Proof.
  unfold U32.in_range, U32.wrap, U32.modulus. apply Z.mod_pos_bound. lia.
Qed.

End BitArith.

(** ** mul32x32 *)

Section Mul32x32.

(** The four partial products recombine into the product. *)
Lemma halves_product (ah al bh bl : Z) :
  (ah * 2 ^ 16 + al) * (bh * 2 ^ 16 + bl)
  = ah * bh * 2 ^ 32 + (al * bh + ah * bl) * 2 ^ 16 + al * bl.
Proof.
  change (2 ^ 32) with (2 ^ 16 * 2 ^ 16). ring.
Qed.

Lemma half_product_range (u v : Z) :
  0 <= u < 2 ^ 16 -> 0 <= v < 2 ^ 16 -> 0 <= u * v <= 4294836225.
Proof.
  intros Hu Hv. change (2 ^ 16) with 65536 in *. nia.
Qed.

Lemma mul32x32_exact (a b : Z) :
  U32.in_range a -> U32.in_range b ->
  fst (mul32x32 a b) * 2 ^ 32 + snd (mul32x32 a b) = a * b
  /\ U32.in_range (fst (mul32x32 a b))
  /\ U32.in_range (snd (mul32x32 a b)).
Proof.
  unfold U32.in_range, U32.modulus. intros Ha Hb.
  unfold mul32x32. cbv zeta. cbn [fst snd].
  rewrite !land_FFFF, !shr_div by lia.
  assert (Hal : 0 <= a mod 2 ^ 16 < 2 ^ 16) by (apply Z.mod_pos_bound; lia).
  assert (Hbl : 0 <= b mod 2 ^ 16 < 2 ^ 16) by (apply Z.mod_pos_bound; lia).
  assert (Hah : 0 <= a / 2 ^ 16 < 2 ^ 16).
  { split; [apply Z.div_pos; lia|apply Z.div_lt_upper_bound; lia]. }
  assert (Hbh : 0 <= b / 2 ^ 16 < 2 ^ 16).
  { split; [apply Z.div_pos; lia|apply Z.div_lt_upper_bound; lia]. }
  pose proof (Z.div_mod a (2 ^ 16) ltac:(lia)) as Ea.
  pose proof (Z.div_mod b (2 ^ 16) ltac:(lia)) as Eb.
  set (al := a mod 2 ^ 16) in *. set (ah := a / 2 ^ 16) in *.
  set (bl := b mod 2 ^ 16) in *. set (bh := b / 2 ^ 16) in *.
  assert (Eab : a * b
                = ah * bh * 2 ^ 32 + (al * bh + ah * bl) * 2 ^ 16 + al * bl).
  { rewrite <- halves_product. rewrite Ea, Eb at 1. f_equal; lia. }
  pose proof (half_product_range al bl Hal Hbl) as R0.
  pose proof (half_product_range al bh Hal Hbh) as R1.
  pose proof (half_product_range ah bl Hah Hbl) as R2.
  pose proof (half_product_range ah bh Hah Hbh) as R3.
  unfold U32.mul, U32.wrap, U32.modulus.
  rewrite (Z.mod_small (al * bl)), (Z.mod_small (al * bh)),
    (Z.mod_small (ah * bl)), (Z.mod_small (ah * bh)) by lia.
  set (p0 := al * bl) in *. set (p1 := al * bh) in *.
  set (p2 := ah * bl) in *. set (p3 := ah * bh) in *.
  pose proof (Z.div_mod p0 (2 ^ 16) ltac:(lia)) as E0.
  pose proof (Z.div_mod p1 (2 ^ 16) ltac:(lia)) as E1.
  pose proof (Z.div_mod p2 (2 ^ 16) ltac:(lia)) as E2.
  pose proof (Z.mod_pos_bound p0 (2 ^ 16) ltac:(lia)) as M0.
  pose proof (Z.mod_pos_bound p1 (2 ^ 16) ltac:(lia)) as M1.
  pose proof (Z.mod_pos_bound p2 (2 ^ 16) ltac:(lia)) as M2.
  assert (D0 : 0 <= p0 / 2 ^ 16 < 2 ^ 16).
  { split; [apply Z.div_pos; lia|apply Z.div_lt_upper_bound; lia]. }
  assert (D1 : 0 <= p1 / 2 ^ 16 < 2 ^ 16).
  { split; [apply Z.div_pos; lia|apply Z.div_lt_upper_bound; lia]. }
  assert (D2 : 0 <= p2 / 2 ^ 16 < 2 ^ 16).
  { split; [apply Z.div_pos; lia|apply Z.div_lt_upper_bound; lia]. }
  unfold U32.add, U32.wrap, U32.modulus.
  rewrite (Z.mod_small (p0 / 2 ^ 16 + p1 mod 2 ^ 16)) by lia.
  rewrite (Z.mod_small (p0 / 2 ^ 16 + p1 mod 2 ^ 16 + p2 mod 2 ^ 16)) by lia.
  set (mid := p0 / 2 ^ 16 + p1 mod 2 ^ 16 + p2 mod 2 ^ 16) in *.
  assert (Hmid : 0 <= mid < 3 * 2 ^ 16) by (unfold mid; lia).
  pose proof (Z.div_mod mid (2 ^ 16) ltac:(lia)) as Em.
  pose proof (Z.mod_pos_bound mid (2 ^ 16) ltac:(lia)) as Mm.
  assert (Dm : 0 <= mid / 2 ^ 16 < 3).
  { split; [apply Z.div_pos; lia|apply Z.div_lt_upper_bound; lia]. }
  (* the low word keeps the low half of [mid] *)
  assert (Eshl : U32.shl mid 16 = (mid mod 2 ^ 16) * 2 ^ 16).
  { rewrite shl_mul by lia.
    change (2 ^ 32) with (2 ^ 16 * 2 ^ 16).
    rewrite Z.mul_mod_distr_r by lia. reflexivity. }
  rewrite Eshl, lor_low_high by lia.
  (* the high word does not overflow because the product fits in 64 bits *)
  assert (Hprod : 0 <= a * b <= 4294967295 * 4294967295) by nia.
  set (hi := p3 + p1 / 2 ^ 16 + p2 / 2 ^ 16 + mid / 2 ^ 16).
  set (lo := p0 mod 2 ^ 16 + mid mod 2 ^ 16 * 2 ^ 16).
  assert (Ehl : hi * 2 ^ 32 + lo = a * b).
  { rewrite Eab. unfold hi, lo. change (2 ^ 32) with (2 ^ 16 * 2 ^ 16).
    change (2 ^ 16) with 65536 in *. lia. }
  assert (Hlo : 0 <= lo < 2 ^ 32).
  { unfold lo. change (2 ^ 32) with (2 ^ 16 * 2 ^ 16).
    change (2 ^ 16) with 65536 in *. lia. }
  assert (Hhi : 0 <= hi < 2 ^ 32).
  { change (2 ^ 32) with 4294967296 in *. unfold hi in *. lia. }
  rewrite (Z.mod_small (p3 + p1 / 2 ^ 16)) by (unfold hi in Hhi; lia).
  rewrite (Z.mod_small (p3 + p1 / 2 ^ 16 + p2 / 2 ^ 16))
    by (unfold hi in Hhi; lia).
  fold hi. rewrite (Z.mod_small hi) by lia.
  repeat split; lia.
Qed.

End Mul32x32.

(** ** clz *)

Section Clz.

Lemma shl_0 (x : Z) : U32.in_range x -> U32.shl x 0 = x.
Proof.
  intros H. unfold U32.shl. rewrite Z.shiftl_0_r. apply wrap_small, H.
Qed.

Lemma shl_exact (x n : Z) :
  0 <= n -> 0 <= x -> x * 2 ^ n < 2 ^ 32 -> U32.shl x n = x * 2 ^ n.
Proof.
  intros Hn H0 H. rewrite shl_mul by assumption. apply Z.mod_small. lia.
Qed.

(** A stage of [clz] can be decided once the stages before it are. *)
Ltac resolved x :=
  lazymatch x with
  | context [U32.b2z] => fail
  | _ => idtac
  end.

Ltac clz_stage :=
  match goal with
  | |- context [U32.shl ?x (Z.shiftl (U32.b2z (?x <? ?t)) ?k)] =>
      resolved x;
      destruct (Z.ltb_spec x t); cbn [U32.b2z];
      [ change (Z.shiftl 1 k) with (2 ^ k);
        rewrite (shl_exact x (2 ^ k)) by lia
      | change (Z.shiftl 0 k) with 0;
        rewrite (shl_0 x) by (unfold U32.in_range, U32.modulus; lia) ]
  | |- context [U32.shl ?x (U32.b2z (?x <? ?t))] =>
      resolved x;
      destruct (Z.ltb_spec x t); cbn [U32.b2z];
      [ rewrite (shl_exact x 1) by lia
      | rewrite (shl_0 x) by (unfold U32.in_range, U32.modulus; lia) ]
  end.

Lemma clz_bounds (x : Z) :
  0 < x < 2 ^ 32 ->
  0 <= clz x <= 31 /\ 2 ^ (31 - clz x) <= x < 2 ^ (32 - clz x).
Proof.
  intros Hx. unfold clz.
  do 5 clz_stage.
  all: match goal with
       | |- context [U32.b2z (?a =? 0)] =>
           destruct (Z.eqb_spec a 0); cbn [U32.b2z]
       end.
  all: lia.
Qed.

Lemma clz_log2 (x : Z) : 0 < x < 2 ^ 32 -> clz x = 31 - Z.log2 x.
Proof.
  intros Hx. destruct (clz_bounds x Hx) as [Hc [Hlo Hhi]].
  assert (E : Z.log2 x = 31 - clz x).
  { apply Z.log2_unique; [lia|].
    replace (Z.succ (31 - clz x)) with (32 - clz x) by lia.
    split; assumption. }
  lia.
Qed.

End Clz.

(** C6.  For every nonzero 32-bit [x], [clz x] is the number of leading
    zero bits of [x]: it lies in [0, 31], [2^(31 - clz x) <= x <
    2^(32 - clz x)], so bit [31 - clz x] is the highest set bit; and
    [clz 0 = 32], [clz 1 = 31], [clz 0xFFFFFFFF = 0]. *)
Theorem clz_correct :
  (forall x, 0 < x < 2 ^ 32 ->
     0 <= clz x <= 31
     /\ 2 ^ (31 - clz x) <= x < 2 ^ (32 - clz x)
     /\ Z.testbit x (31 - clz x) = true
     /\ (forall i, 31 - clz x < i -> Z.testbit x i = false))
  /\ clz 0 = 32 /\ clz 1 = 31 /\ clz 0xFFFFFFFF = 0.
Proof.
  split; [|repeat split; reflexivity].
  intros x Hx. destruct (clz_bounds x Hx) as [Hc [Hlo Hhi]].
  pose proof (clz_log2 x Hx) as El.
  split; [exact Hc|]. split; [split; assumption|].
  replace (31 - clz x) with (Z.log2 x) by lia.
  split.
  - apply Z.bit_log2. lia.
  - intros i Hi. apply Z.bits_above_log2; lia.
Qed.

Lemma clz_correct_witness :
  0 <= clz 40000 <= 31
  /\ 2 ^ (31 - clz 40000) <= 40000 < 2 ^ (32 - clz 40000)
  /\ Z.testbit 40000 (31 - clz 40000) = true
  /\ (forall i, 31 - clz 40000 < i -> Z.testbit 40000 i = false).
Proof.
  apply (proj1 clz_correct 40000). lia.
Defined.

(** ** udiv and umod *)

Section Division.

Variables dividend divisor : Z.
Hypothesis dividend_range : U32.in_range dividend.
Hypothesis divisor_range : U32.in_range divisor.
Hypothesis divisor_nonzero : divisor <> 0.

Lemma next_bit (i : Z) :
  0 <= i ->
  dividend / 2 ^ i = 2 * (dividend / 2 ^ (i + 1)) + (dividend / 2 ^ i) mod 2.
Proof.
  intros Hi. rewrite Z.pow_add_r, Z.pow_1_r by lia.
  rewrite <- Z.div_div by lia.
  apply Z.div_mod. lia.
Qed.

Lemma shifted_dividend_bound (i : Z) :
  0 <= i -> 0 <= dividend / 2 ^ (i + 1) < 2 ^ 31.
Proof.
  intros Hi. unfold U32.in_range, U32.modulus in dividend_range.
  assert (0 < 2 ^ i) by (apply Z.pow_pos_nonneg; lia).
  rewrite Z.pow_add_r, Z.pow_1_r by lia.
  split.
  - apply Z.div_pos; lia.
  - apply Z.div_lt_upper_bound; [lia|].
    change (2 ^ 32) with (2 * 2 ^ 31) in dividend_range. nia.
Qed.

(** The two assignments to [remainder] at the head of the body. *)
Lemma shift_in_bit (i r : Z) :
  0 <= i -> 0 <= r < 2 ^ 31 ->
  Z.lor (U32.shl r 1) (Z.land (U32.shr dividend i) 1)
  = 2 * r + (dividend / 2 ^ i) mod 2.
Proof.
  intros Hi Hr.
  rewrite shl_mul, land_1, shr_div by lia.
  rewrite Z.mod_small by (change (2 ^ 32) with (2 * 2 ^ 31); lia).
  rewrite lor_high_low; [lia|lia|].
  change (2 ^ 1) with 2. apply Z.mod_pos_bound. lia.
Qed.

Lemma set_quotient_bit (i k : Z) :
  0 <= i < 32 -> Z.lor (k * 2 ^ (i + 1)) (U32.shl 1 i) = (2 * k + 1) * 2 ^ i.
Proof.
  intros Hi.
  assert (0 < 2 ^ i < 2 ^ 32).
  { split; [apply Z.pow_pos_nonneg; lia|apply Z.pow_lt_mono_r; lia]. }
  rewrite shl_mul, Z.mul_1_l, Z.mod_small by lia.
  rewrite lor_high_low; [|lia|].
  - rewrite Z.pow_add_r, Z.pow_1_r by lia. ring.
  - rewrite Z.pow_add_r, Z.pow_1_r by lia. lia.
Qed.

Lemma udiv_body_inv (i : nat) (qr : Z * Z) :
  (i < 32)%nat -> div_inv dividend divisor (S i) qr ->
  div_inv dividend divisor i (udiv_body dividend divisor (Z.of_nat i) qr).
Proof.
  intros Hi (k & Hk & Hq & Hd & Hr). destruct qr as [q r]. cbn [fst snd] in *.
  replace (Z.of_nat (S i)) with (Z.of_nat i + 1) in * by lia.
  pose proof (shifted_dividend_bound (Z.of_nat i) ltac:(lia)) as Hb.
  pose proof (next_bit (Z.of_nat i) ltac:(lia)) as Hn.
  pose proof (Z.mod_pos_bound (dividend / 2 ^ Z.of_nat i) 2 ltac:(lia)) as Hbit.
  assert (Hkd : 0 <= k * divisor).
  { unfold U32.in_range in divisor_range. nia. }
  unfold udiv_body.
  rewrite shift_in_bit by lia.
  set (bit := (dividend / 2 ^ Z.of_nat i) mod 2) in *.
  destruct (Z.geb_spec (2 * r + bit) divisor) as [Hge|Hlt].
  - exists (2 * k + 1). cbn [fst snd].
    rewrite Hq, set_quotient_bit by lia.
    unfold U32.sub. rewrite wrap_small.
    + repeat split; lia.
    + unfold U32.in_range, U32.modulus in *. lia.
  - exists (2 * k). cbn [fst snd]. rewrite Hq.
    rewrite Z.pow_add_r, Z.pow_1_r by lia.
    repeat split; lia.
Qed.

Lemma udiv_loop_inv (n : nat) (qr : Z * Z) :
  (n <= 32)%nat -> div_inv dividend divisor n qr ->
  div_inv dividend divisor 0 (udiv_loop n dividend divisor qr).
Proof.
  revert qr. induction n as [|i IH]; intros qr Hn Hinv.
  - exact Hinv.
  - cbn [udiv_loop]. apply IH; [lia|].
    apply udiv_body_inv; [lia|assumption].
Qed.

Lemma div_inv_init : div_inv dividend divisor 32 (0, 0).
Proof.
  exists 0. cbn [fst snd].
  unfold U32.in_range, U32.modulus in *.
  change (Z.of_nat 32) with 32.
  rewrite Z.div_small by lia. lia.
Qed.

Lemma udiv_loop_result :
  udiv_loop 32 dividend divisor (0, 0)
  = (dividend / divisor, dividend mod divisor).
Proof.
  destruct (udiv_loop_inv 32 (0, 0) (le_n _) div_inv_init)
    as (k & Hk & Hq & Hd & Hr).
  destruct (udiv_loop 32 dividend divisor (0, 0)) as [q r].
  cbn [fst snd] in *. change (2 ^ Z.of_nat 0) with 1 in *.
  rewrite Z.div_1_r in Hd. rewrite Z.mul_1_r in Hq. subst k.
  f_equal.
  - apply (Z.div_unique_pos dividend divisor q r); lia.
  - apply (Z.mod_unique_pos dividend divisor q r); lia.
Qed.

(** [umod] runs the same loop without the quotient. *)
Lemma umod_loop_udiv_loop (n : nat) (q r : Z) :
  umod_loop n dividend divisor r = snd (udiv_loop n dividend divisor (q, r)).
Proof.
  revert q r. induction n as [|i IH]; intros q r; [reflexivity|].
  cbn [umod_loop udiv_loop]. unfold umod_body, udiv_body.
  destruct (_ >=? divisor); apply IH.
Qed.

End Division.

(** C4.  For every 32-bit dividend [a] and nonzero 32-bit divisor [b],
    [udiv a b * b + umod a b = a] with the product taken exactly, [udiv a b]
    is the floor of [a / b] and [umod a b] is [a mod b]. *)
Theorem udiv_umod_correct (a b : Z) :
  U32.in_range a -> U32.in_range b -> b <> 0 ->
  udiv a b * b + umod a b = a
  /\ udiv a b = a / b
  /\ umod a b = a mod b.
Proof.
  intros Ha Hb Hnz.
  assert (Eq : udiv a b = a / b).
  { unfold udiv. destruct (Z.eqb_spec b 0); [contradiction|].
    rewrite udiv_loop_result by assumption. reflexivity. }
  assert (Er : umod a b = a mod b).
  { unfold umod. destruct (Z.eqb_spec b 0); [contradiction|].
    rewrite (umod_loop_udiv_loop a b 32 0 0).
    rewrite udiv_loop_result by assumption. reflexivity. }
  rewrite Eq, Er. repeat split.
  pose proof (Z.div_mod a b Hnz). lia.
Qed.

Lemma udiv_umod_correct_witness :
  udiv 4294967295 7 * 7 + umod 4294967295 7 = 4294967295
  /\ udiv 4294967295 7 = 4294967295 / 7
  /\ umod 4294967295 7 = 4294967295 mod 7.
Proof.
  apply (udiv_umod_correct 4294967295 7);
    unfold U32.in_range, U32.modulus; lia.
Defined.

(** C8.  A zero divisor is not an error: [udiv a 0] and [umod a 0] are
    both 0, for every dividend [a]. *)
Theorem udiv_umod_zero_divisor (a : Z) : udiv a 0 = 0 /\ umod a 0 = 0.
Proof.
  split; reflexivity.
Qed.

(** ** umul *)

Section Umul.

Lemma wrap_add_l (a b : Z) : U32.wrap (U32.wrap a + b) = U32.wrap (a + b).
Proof.
  unfold U32.wrap. apply Zplus_mod_idemp_l.
Qed.

Lemma wrap_add_shl_mul (r a h : Z) :
  U32.wrap (r + U32.shl a 1 * h) = U32.wrap (r + 2 * a * h).
Proof.
  rewrite shl_mul by lia. unfold U32.wrap, U32.modulus.
  change (2 ^ 1) with 2.
  rewrite <- Zplus_mod_idemp_r, Zmult_mod_idemp_l, Zplus_mod_idemp_r.
  f_equal. ring.
Qed.

Lemma umul_loop_spec (fuel : nat) :
  forall a b result,
    0 <= b < 2 ^ Z.of_nat fuel -> U32.in_range result ->
    umul_loop fuel a b result = Some (U32.wrap (result + a * b)).
Proof.
  induction fuel as [|fuel IH]; intros a b result Hb Hr.
  - change (2 ^ Z.of_nat 0) with 1 in Hb. assert (b = 0) as -> by lia.
    cbn. rewrite Z.mul_0_r, Z.add_0_r, wrap_small by assumption. reflexivity.
  - cbn [umul_loop]. destruct (Z.eqb_spec b 0) as [->|Hnz].
    + rewrite Z.mul_0_r, Z.add_0_r, wrap_small by assumption. reflexivity.
    + rewrite Nat2Z.inj_succ, Z.pow_succ_r in Hb by lia.
      rewrite land_1, shr_div by lia. change (2 ^ 1) with 2.
      pose proof (Z.div_mod b 2 ltac:(lia)) as Eb.
      pose proof (Z.mod_pos_bound b 2 ltac:(lia)) as Hbit.
      set (h := b / 2) in *. set (m := b mod 2) in *.
      rewrite IH.
      * f_equal. rewrite wrap_add_shl_mul. clearbody h m. subst b.
        destruct (Z.eqb_spec m 0) as [E0|E1].
        -- subst m. f_equal. ring.
        -- assert (m = 1) as -> by lia.
           unfold U32.add. rewrite wrap_add_l. f_equal. ring.
      * lia.
      * destruct (m =? 0); [assumption|apply wrap_range].
Qed.

Lemma umul_total (a b : Z) :
  U32.in_range b -> umul a b = Some (U32.wrap (a * b)).
Proof.
  intros Hb. unfold umul, umul_fuel.
  rewrite umul_loop_spec.
  - reflexivity.
  - exact Hb.
  - unfold U32.in_range, U32.modulus. lia.
Qed.

End Umul.

(** C5.  For all 32-bit [a] and [b], the loop of [umul] ends and returns
    [(a * b) mod 2^32]. *)
Theorem umul_correct (a b : Z) :
  U32.in_range a -> U32.in_range b -> umul a b = Some ((a * b) mod 2 ^ 32).
Proof.
  intros _ Hb. apply umul_total, Hb.
Qed.

Lemma umul_correct_witness :
  umul 4294967295 4294967295 = Some ((4294967295 * 4294967295) mod 2 ^ 32).
Proof.
  apply (umul_correct 4294967295 4294967295);
    unfold U32.in_range, U32.modulus; lia.
Defined.

(** C1.  For all 32-bit [a] and [b], the words [(hi, lo)] computed by
    [mul32x32] satisfy [hi * 2^32 + lo = a * b], the exact product. *)
Theorem mul32x32_full_product (a b hi lo : Z) :
  U32.in_range a -> U32.in_range b ->
  mul32x32 a b = (hi, lo) ->
  hi * 2 ^ 32 + lo = a * b /\ U32.in_range hi /\ U32.in_range lo.
Proof.
  intros Ha Hb E.
  pose proof (mul32x32_exact a b Ha Hb) as H.
  rewrite E in H. exact H.
Qed.

Lemma mul32x32_full_product_witness :
  4294967294 * 2 ^ 32 + 1 = 4294967295 * 4294967295
  /\ U32.in_range 4294967294 /\ U32.in_range 1.
Proof.
  apply (mul32x32_full_product 4294967295 4294967295 4294967294 1).
  - unfold U32.in_range, U32.modulus. lia.
  - unfold U32.in_range, U32.modulus. lia.
  - reflexivity.
Defined.

(** ** rsqrt: special cases and sample values *)

(** C2.  [rsqrt 0] is 0xFFFFFFFF and [rsqrt 0xFFFFFFFF] is 1; every other
    input takes the general path: interpolated seed, then one Newton
    step. *)
Theorem rsqrt_special_cases :
  rsqrt 0 = Some 0xFFFFFFFF
  /\ rsqrt 0xFFFFFFFF = Some 1
  /\ (forall x, x <> 0 -> x <> 0xFFFFFFFF ->
        rsqrt x = (y <- rsqrt_seed x ;; Some (newton_step_q16_inline y x))).
Proof.
  split; [reflexivity|]. split; [reflexivity|].
  intros x H0 Hmax. unfold rsqrt.
  destruct (Z.eqb_spec x 0); [contradiction|].
  destruct (Z.eqb_spec x U32.max); [contradiction|].
  reflexivity.
Qed.

(** The guard on 0 is needed: past it the input 0 would give
    [exp = 31u - 32 = 0xFFFFFFFF] and read far outside the table. *)
Lemma rsqrt_seed_0_undefined :
  rsqrt_exp 0 = 0xFFFFFFFF /\ rsqrt_seed 0 = None.
Proof.
  split; reflexivity.
Qed.

Lemma rsqrt_special_cases_witness :
  rsqrt 3 = (y <- rsqrt_seed 3 ;; Some (newton_step_q16_inline y 3)).
Proof.
  apply (proj2 (proj2 rsqrt_special_cases) 3); discriminate.
Defined.

(** C7.  At 1, 4, 16 and 256 the estimate is within 4 units of
    65536, 32768, 16384 and 4096. *)
Theorem rsqrt_powers_of_four :
  (exists y, rsqrt 1 = Some y /\ Z.abs (y - 65536) <= 4)
  /\ (exists y, rsqrt 4 = Some y /\ Z.abs (y - 32768) <= 4)
  /\ (exists y, rsqrt 16 = Some y /\ Z.abs (y - 16384) <= 4)
  /\ (exists y, rsqrt 256 = Some y /\ Z.abs (y - 4096) <= 4).
Proof.
  repeat split; eexists; (split; [vm_compute; reflexivity|cbn; lia]).
Qed.

(** ** rsqrt: monotonicity *)

Section Antitone.

Variable f : Z -> option Z.

Lemma antitone_run_sound (n : nat) :
  forall x prev,
    antitone_run f n x prev = true ->
    forall j k, 0 <= j <= k -> k < Z.of_nat n ->
      exists yj yk,
        f (x + j) = Some yj /\ f (x + k) = Some yk /\ yk <= yj <= prev.
Proof.
  induction n as [|n IH]; intros x prev Hrun j k Hjk Hk; [lia|].
  cbn [antitone_run] in Hrun.
  destruct (f x) as [y|] eqn:Ex; [|discriminate].
  apply andb_true_iff in Hrun. destruct Hrun as [Hle Hrun].
  apply Z.leb_le in Hle.
  destruct (Z.eq_dec j 0) as [->|Hj].
  - destruct (Z.eq_dec k 0) as [->|Hk0].
    + exists y, y. rewrite Z.add_0_r. repeat split; try assumption; lia.
    + destruct (IH (x + 1) y Hrun (k - 1) (k - 1) ltac:(lia) ltac:(lia))
        as (yj & yk & _ & Ek & Hyk).
      exists y, yk. rewrite Z.add_0_r.
      replace (x + k) with (x + 1 + (k - 1)) by lia.
      repeat split; try assumption; lia.
  - destruct (IH (x + 1) y Hrun (j - 1) (k - 1) ltac:(lia) ltac:(lia))
      as (yj & yk & Ej & Ek & Hy).
    exists yj, yk.
    replace (x + j) with (x + 1 + (j - 1)) by lia.
    replace (x + k) with (x + 1 + (k - 1)) by lia.
    repeat split; try assumption; lia.
Qed.

End Antitone.

(** The first descent that goes the wrong way. *)
Lemma rsqrt_at_5352_5353 : rsqrt 5352 = Some 893 /\ rsqrt 5353 = Some 894.
Proof.
  split; vm_compute; reflexivity.
Qed.

(** The same happens where a seed-table bucket ends, for instance just
    below [2^30]. *)
Lemma rsqrt_below_2p30 : rsqrt 1073741823 = Some 1 /\ rsqrt 1073741824 = Some 2.
Proof.
  split; vm_compute; reflexivity.
Qed.

(** C3, as stated, fails: 5352 < 5353 lie strictly between 0 and
    0xFFFFFFFF, yet [rsqrt 5352 = 893 < 894 = rsqrt 5353]. *)
Lemma rsqrt_not_antitone :
  ~ (forall x1 x2 y1 y2,
       0 < x1 -> x1 < x2 -> x2 < 0xFFFFFFFF ->
       rsqrt x1 = Some y1 -> rsqrt x2 = Some y2 -> y1 >= y2).
Proof.
  intros H.
  destruct rsqrt_at_5352_5353 as [E1 E2].
  specialize (H 5352 5353 893 894 ltac:(lia) ltac:(lia) ltac:(lia) E1 E2).
  lia.
Qed.

(** Up to 5352, where the first rise is found, [rsqrt] is antitone: for
    [0 < x1 < x2 <= 5352], both estimates exist and
    [rsqrt x1 >= rsqrt x2]. *)
Theorem rsqrt_antitone_upto_5352 (x1 x2 : Z) :
  0 < x1 -> x1 < x2 -> x2 <= 5352 ->
  exists y1 y2, rsqrt x1 = Some y1 /\ rsqrt x2 = Some y2 /\ y1 >= y2.
Proof.
  intros H1 H12 H2.
  assert (Hrun : antitone_run rsqrt (Z.to_nat 5352) 1 65536 = true)
    by (vm_compute; reflexivity).
  assert (Hn : Z.of_nat (Z.to_nat 5352) = 5352) by (apply Z2Nat.id; lia).
  destruct (antitone_run_sound rsqrt (Z.to_nat 5352) 1 65536 Hrun
              (x1 - 1) (x2 - 1) ltac:(lia) ltac:(lia))
    as (y1 & y2 & E1 & E2 & Hy).
  replace (1 + (x1 - 1)) with x1 in E1 by lia.
  replace (1 + (x2 - 1)) with x2 in E2 by lia.
  exists y1, y2. repeat split; try assumption; lia.
Qed.

Lemma rsqrt_antitone_upto_5352_witness :
  exists y1 y2, rsqrt 3 = Some y1 /\ rsqrt 5000 = Some y2 /\ y1 >= y2.
Proof.
  apply (rsqrt_antitone_upto_5352 3 5000); lia.
Defined.

(** ** rsqrt: every index and shift amount is in range *)

Section Safety.

Lemma lor_range (a b : Z) :
  U32.in_range a -> U32.in_range b -> U32.in_range (Z.lor a b).
Proof.
  unfold U32.in_range, U32.modulus. intros Ha Hb.
  assert (H0 : 0 <= Z.lor a b) by (apply Z.lor_nonneg; lia).
  split; [assumption|].
  destruct (Z.eq_dec (Z.lor a b) 0) as [->|Hnz]; [lia|].
  apply Z.log2_lt_pow2; [lia|].
  rewrite Z.log2_lor by lia.
  assert (La : Z.log2 a < 32).
  { destruct (Z.eq_dec a 0) as [->|]; [cbn; lia|].
    apply Z.log2_lt_pow2; lia. }
  assert (Lb : Z.log2 b < 32).
  { destruct (Z.eq_dec b 0) as [->|]; [cbn; lia|].
    apply Z.log2_lt_pow2; lia. }
  lia.
Qed.

Lemma shr_range (a n : Z) :
  U32.in_range a -> 0 <= n -> U32.in_range (U32.shr a n).
Proof.
  unfold U32.in_range, U32.modulus. intros Ha Hn.
  rewrite shr_div by assumption.
  assert (0 < 2 ^ n) by (apply Z.pow_pos_nonneg; lia).
  split; [apply Z.div_pos; lia|].
  apply Z.div_lt_upper_bound; nia.
Qed.

Lemma shl_range (a n : Z) : U32.in_range (U32.shl a n).
Proof.
  apply wrap_range.
Qed.

Lemma newton_step_range (y x : Z) :
  U32.in_range (newton_step_q16_inline y x).
Proof.
  unfold newton_step_q16_inline.
  destruct (mul32x32 y y) as [y2_hi y2_lo].
  destruct (mul32x32 x y2_hi) as [hi1 lo1].
  destruct (mul32x32 x y2_lo) as [hi2 lo2].
  destruct (mul32x32 y _) as [hi lo].
  apply lor_range; [apply shl_range|].
  apply shr_range; [apply wrap_range|lia].
Qed.

Lemma rsqrt_exp_range (x : Z) :
  0 < x < 2 ^ 32 -> rsqrt_exp x = 31 - clz x /\ 0 <= rsqrt_exp x <= 31.
Proof.
  intros Hx. destruct (clz_bounds x Hx) as [Hc _].
  unfold rsqrt_exp, U32.sub.
  rewrite wrap_small by (unfold U32.in_range, U32.modulus; lia).
  lia.
Qed.

Lemma read_in_bounds (arr : list Z) (i : Z) :
  0 <= i < Z.of_nat (length arr) -> exists v, read arr i = Some v.
Proof.
  intros Hi. unfold read.
  destruct (Z.leb_spec 0 i); [|lia].
  destruct (Z.ltb_spec i (Z.of_nat (length arr))); [|lia].
  cbn [andb].
  destruct (nth_error arr (Z.to_nat i)) as [v|] eqn:E.
  - exists v. reflexivity.
  - apply nth_error_None in E. lia.
Qed.

Lemma rsqrt_table_length : Z.of_nat (length rsqrt_table) = 32.
Proof.
  reflexivity.
Qed.

Lemma shl_checked_in_bounds (a n : Z) :
  0 <= n < 32 -> shl_checked a n = Some (U32.shl a n).
Proof.
  intros Hn. unfold shl_checked.
  destruct (Z.leb_spec 0 n); [|lia]. destruct (Z.ltb_spec n 32); [|lia].
  reflexivity.
Qed.

Lemma shr_checked_in_bounds (a n : Z) :
  0 <= n < 32 -> shr_checked a n = Some (U32.shr a n).
Proof.
  intros Hn. unfold shr_checked.
  destruct (Z.leb_spec 0 n); [|lia]. destruct (Z.ltb_spec n 32); [|lia].
  reflexivity.
Qed.

Lemma fraction_shift_high (exp : Z) :
  16 <= exp <= 31 ->
  fraction_shift exp = inl (exp - 16) /\ 0 <= exp - 16 <= 15.
Proof.
  intros He. unfold fraction_shift, U32.sub.
  destruct (Z.geb_spec exp 16); [|lia].
  rewrite wrap_small by (unfold U32.in_range, U32.modulus; lia).
  split; [reflexivity|lia].
Qed.

Lemma fraction_shift_low (exp : Z) :
  0 <= exp < 16 ->
  fraction_shift exp = inr (16 - exp) /\ 1 <= 16 - exp <= 16.
Proof.
  intros He. unfold fraction_shift, U32.sub.
  destruct (Z.geb_spec exp 16); [lia|].
  rewrite wrap_small by (unfold U32.in_range, U32.modulus; lia).
  split; [reflexivity|lia].
Qed.

Lemma rsqrt_fraction_defined (x exp : Z) :
  0 <= exp <= 31 ->
  exists fraction,
    rsqrt_fraction x exp = Some fraction /\ U32.in_range fraction.
Proof.
  intros He. unfold rsqrt_fraction.
  rewrite shl_checked_in_bounds by lia. cbn [bind].
  destruct (Z_lt_le_dec exp 16) as [Hlo|Hhi].
  - destruct (fraction_shift_low exp ltac:(lia)) as [-> Hn].
    rewrite shl_checked_in_bounds by lia.
    eexists. split; [reflexivity|apply shl_range].
  - destruct (fraction_shift_high exp ltac:(lia)) as [-> Hn].
    rewrite shr_checked_in_bounds by lia.
    eexists. split; [reflexivity|].
    apply shr_range; [apply wrap_range|lia].
Qed.

Lemma rsqrt_y_next_defined (exp : Z) :
  0 <= exp <= 31 ->
  (exp < 31 -> rsqrt_y_next exp = read rsqrt_table (exp + 1))
  /\ (exp = 31 -> rsqrt_y_next exp = Some 1)
  /\ exists y_next, rsqrt_y_next exp = Some y_next.
Proof.
  intros He. unfold rsqrt_y_next, U32.add.
  rewrite wrap_small by (unfold U32.in_range, U32.modulus; lia).
  destruct (Z.ltb_spec exp 31) as [Hlt|Hge].
  - split; [reflexivity|]. split; [lia|].
    apply read_in_bounds. rewrite rsqrt_table_length. lia.
  - split; [lia|]. split; [reflexivity|]. exists 1. reflexivity.
Qed.

Lemma rsqrt_seed_defined (x : Z) :
  0 < x < 2 ^ 32 -> exists y, rsqrt_seed x = Some y.
Proof.
  intros Hx. destruct (rsqrt_exp_range x Hx) as [_ He].
  unfold rsqrt_seed. cbv zeta.
  destruct (read_in_bounds rsqrt_table (rsqrt_exp x)) as [y_base ->].
  { rewrite rsqrt_table_length. lia. }
  destruct (rsqrt_y_next_defined _ He) as (_ & _ & y_next & ->).
  destruct (rsqrt_fraction_defined x _ He) as (fraction & -> & Hf).
  cbn [bind]. rewrite umul_total by assumption. cbn [bind].
  eexists. reflexivity.
Qed.

Lemma rsqrt_defined (x : Z) :
  U32.in_range x -> exists y, rsqrt x = Some y /\ U32.in_range y.
Proof.
  intros Hx. unfold rsqrt.
  destruct (Z.eqb_spec x 0).
  { eexists. split; [reflexivity|]. unfold U32.in_range, U32.modulus. lia. }
  destruct (Z.eqb_spec x U32.max).
  { eexists. split; [reflexivity|]. unfold U32.in_range, U32.modulus. lia. }
  destruct (rsqrt_seed_defined x) as [y ->].
  { unfold U32.in_range, U32.modulus in Hx. lia. }
  cbn [bind]. eexists. split; [reflexivity|apply newton_step_range].
Qed.

End Safety.

(** C10, as stated, fails at [x = 1]: there [exp = 0] and the fraction is
    formed by a left shift by [16 - 0 = 16], which is not in [0, 15]. *)
Lemma fraction_shift_16_at_1 :
  ~ (forall x, 0 < x < 0xFFFFFFFF ->
       forall n, fraction_shift (rsqrt_exp x) = inr n -> 0 <= n <= 15).
Proof.
  intros H. specialize (H 1 ltac:(lia) 16 eq_refl). lia.
Qed.

(** C10, amended.  [rsqrt] is defined on every 32-bit input.  For
    [0 < x < 0xFFFFFFFF], [exp = 31 - clz x] lies in [0, 31], so
    [rsqrt_table[exp]] is read in bounds; [rsqrt_table[exp + 1]] is read
    only when [exp < 31], in bounds, and 1 is used when [exp = 31];
    [1u << exp] shifts by less than 32; the fraction is a right shift by
    [exp - 16] in [0, 15] when [exp >= 16] and a left shift by [16 - exp]
    in [1, 16] when [exp < 16]. *)
Theorem rsqrt_safe (x : Z) :
  U32.in_range x ->
  (exists y, rsqrt x = Some y /\ U32.in_range y)
  /\ (0 < x < 0xFFFFFFFF ->
      let exp := rsqrt_exp x in
      exp = 31 - clz x
      /\ 0 <= exp <= 31
      /\ (exists y_base, read rsqrt_table exp = Some y_base)
      /\ (exp < 31 ->
          rsqrt_y_next exp = read rsqrt_table (exp + 1)
          /\ exists y_next, read rsqrt_table (exp + 1) = Some y_next)
      /\ (exp = 31 -> rsqrt_y_next exp = Some 1)
      /\ shl_checked 1 exp = Some (U32.shl 1 exp)
      /\ (16 <= exp ->
          fraction_shift exp = inl (exp - 16) /\ 0 <= exp - 16 <= 15)
      /\ (exp < 16 ->
          fraction_shift exp = inr (16 - exp) /\ 1 <= 16 - exp <= 16)
      /\ (exists fraction, rsqrt_fraction x exp = Some fraction)).
Proof.
  intros Hx. split; [apply rsqrt_defined, Hx|].
  intros Hx'. cbv zeta.
  destruct (rsqrt_exp_range x ltac:(lia)) as [Ee He].
  destruct (rsqrt_y_next_defined _ He) as (Hn1 & Hn2 & _).
  split; [exact Ee|]. split; [exact He|].
  split; [apply read_in_bounds; rewrite rsqrt_table_length; lia|].
  split.
  { intros Hlt. split; [apply Hn1, Hlt|].
    apply read_in_bounds. rewrite rsqrt_table_length. lia. }
  split; [exact Hn2|].
  split; [apply shl_checked_in_bounds; lia|].
  split; [intros H16; apply fraction_shift_high; lia|].
  split; [intros H16; apply fraction_shift_low; lia|].
  destruct (rsqrt_fraction_defined x _ He) as (fraction & Ef & _).
  exists fraction. exact Ef.
Qed.

Lemma rsqrt_safe_witness :
  (exists y, rsqrt 1 = Some y /\ U32.in_range y)
  /\ rsqrt_exp 1 = 31 - clz 1
  /\ 0 <= rsqrt_exp 1 <= 31
  /\ fraction_shift (rsqrt_exp 1) = inr (16 - rsqrt_exp 1)
  /\ 1 <= 16 - rsqrt_exp 1 <= 16.
Proof.
  assert (Hr : U32.in_range 1) by (unfold U32.in_range, U32.modulus; lia).
  destruct (rsqrt_safe 1 Hr) as [Hd Hs].
  destruct (Hs ltac:(lia)) as (Ee & He & _ & _ & _ & _ & _ & Hlow & _).
  destruct (Hlow ltac:(rewrite Ee; vm_compute; reflexivity)) as [Hf Hn].
  repeat split; try assumption; lia.
Defined.

(** ** The seed table *)

(** *** Nearest integers of the real seeds *)

Section NearestSeed.

Variables e n : Z.
Hypothesis e_range : 0 <= e <= 31.

Lemma pow2_range : 1 <= 2 ^ e <= 2 ^ 31.
Proof.
  split.
  - assert (0 < 2 ^ e) by (apply Z.pow_pos_nonneg; lia). lia.
  - apply Z.pow_le_mono_r; lia.
Qed.

Lemma seed_root_square : (seed_root e * seed_root e = IZR (2 ^ e))%R.
Proof.
  unfold seed_root. apply sqrt_sqrt. apply IZR_le.
  pose proof pow2_range. lia.
Qed.

Lemma seed_root_range : (1 <= seed_root e < 65536)%R.
Proof.
  pose proof seed_root_square as Hs.
  assert (H0 : (0 <= seed_root e)%R) by apply sqrt_pos.
  pose proof pow2_range as [Hlo Hhi].
  apply IZR_le in Hlo, Hhi. change (2 ^ 31) with 2147483648 in Hhi.
  rewrite <- Hs in Hlo, Hhi.
  split; nra.
Qed.

(** Multiplying [|n - 2^16 / s| <= 1/2] through by [2 * s]. *)
Lemma nearest_integer_scaled :
  nearest_integer n (real_seed e)
  <-> ((2 * IZR n - 1) * seed_root e <= 131072
       <= (2 * IZR n + 1) * seed_root e)%R.
Proof.
  pose proof seed_root_range as Hs.
  unfold nearest_integer, real_seed.
  set (s := seed_root e) in *.
  assert (E : (IZR n - 65536 / s = (IZR n * s - 65536) / s)%R)
    by (field; lra).
  rewrite E. clear E.
  assert (Es : ((IZR n * s - 65536) / s * s = IZR n * s - 65536)%R)
    by (field; lra).
  split.
  - intros H.
    assert (Hb : (- (1 / 2) <= (IZR n * s - 65536) / s <= 1 / 2)%R).
    { unfold Rabs in H. destruct (Rcase_abs _); lra. }
    destruct Hb as [Hlo Hhi].
    assert (Hlo' : (- (1 / 2) * s <= (IZR n * s - 65536) / s * s)%R)
      by (apply Rmult_le_compat_r; lra).
    assert (Hhi' : ((IZR n * s - 65536) / s * s <= 1 / 2 * s)%R)
      by (apply Rmult_le_compat_r; lra).
    rewrite Es in Hlo', Hhi'. lra.
  - intros [Hlo Hhi]. apply Rabs_le.
    split; (apply Rmult_le_reg_r with s; [lra|]); rewrite Es; lra.
Qed.

(** The integer test decides the real-number property. *)
Lemma nearest_seed_spec :
  nearest_seed e n = true <-> nearest_integer n (real_seed e).
Proof.
  rewrite nearest_integer_scaled.
  pose proof seed_root_range as Hs. pose proof seed_root_square as Hss.
  unfold nearest_seed. rewrite !andb_true_iff, !Z.leb_le.
  change (2 ^ 34) with 17179869184.
  set (s := seed_root e) in *.
  split.
  - intros [[Hn Hlo] Hhi].
    apply IZR_le in Hn, Hlo, Hhi.
    rewrite mult_IZR in Hlo, Hhi. rewrite <- Hss in Hlo, Hhi.
    rewrite Z.pow_2_r, mult_IZR in Hlo, Hhi.
    rewrite minus_IZR, mult_IZR in Hlo. rewrite plus_IZR, mult_IZR in Hhi.
    set (a := IZR n) in *.
    split; nra.
  - intros [Hlo Hhi].
    assert (Hn : 1 <= n).
    { assert (0 < n); [|lia]. apply lt_IZR. nra. }
    assert (Hn' := IZR_le _ _ Hn).
    split; [split; [exact Hn|]|].
    + apply le_IZR.
      rewrite mult_IZR, <- Hss, Z.pow_2_r, mult_IZR, minus_IZR, mult_IZR.
      set (a := IZR n) in *. nra.
    + apply le_IZR.
      rewrite mult_IZR, <- Hss, Z.pow_2_r, mult_IZR, plus_IZR, mult_IZR.
      set (a := IZR n) in *. nra.
Qed.

End NearestSeed.

(** *** The entries *)

Section SeedTable.

(** Shape of the table: 32 entries, the first is 65536, and the entries
    never increase. *)
Lemma rsqrt_table_shape :
  length rsqrt_table = 32%nat
  /\ read rsqrt_table 0 = Some 65536
  /\ non_increasing rsqrt_table = true.
Proof.
  repeat split.
Qed.

Lemma non_increasing_sound (l : list Z) :
  non_increasing l = true ->
  forall i a b,
    nth_error l i = Some a -> nth_error l (S i) = Some b -> b <= a.
Proof.
  induction l as [|u l IH]; intros Hl i a b Ea Eb.
  - destruct i; discriminate.
  - destruct l as [|v l]; [destruct i; discriminate|].
    cbn [non_increasing] in Hl.
    apply andb_true_iff in Hl. destruct Hl as [Huv Hl].
    apply Z.leb_le in Huv.
    destruct i as [|i].
    + cbn in Ea, Eb. congruence.
    + apply (IH Hl i); assumption.
Qed.

Lemma rsqrt_table_non_increasing (i : Z) :
  0 <= i <= 30 ->
  exists a b,
    read rsqrt_table i = Some a /\ read rsqrt_table (i + 1) = Some b /\ b <= a.
Proof.
  intros Hi.
  destruct (read_in_bounds rsqrt_table i) as [a Ea];
    [rewrite rsqrt_table_length; lia|].
  destruct (read_in_bounds rsqrt_table (i + 1)) as [b Eb];
    [rewrite rsqrt_table_length; lia|].
  exists a, b. split; [assumption|]. split; [assumption|].
  unfold read in Ea, Eb. rewrite rsqrt_table_length in Ea, Eb.
  destruct (Z.leb_spec 0 i); [|lia]. destruct (Z.ltb_spec i 32); [|lia].
  destruct (Z.leb_spec 0 (i + 1)); [|lia].
  destruct (Z.ltb_spec (i + 1) 32); [|lia].
  cbn [andb] in Ea, Eb.
  replace (Z.to_nat (i + 1)) with (S (Z.to_nat i)) in Eb by lia.
  apply (non_increasing_sound rsqrt_table (proj2 (proj2 rsqrt_table_shape))
           (Z.to_nat i)); assumption.
Qed.

(** Every entry but the one at index 19 is the integer nearest to
    [2^16 / sqrt (2^e)]. *)
Lemma rsqrt_table_nearest_except_19 (e : Z) :
  0 <= e <= 31 -> e <> 19 ->
  exists v, read rsqrt_table e = Some v /\ nearest_integer v (real_seed e).
Proof.
  intros He Hne.
  assert (Hall : forallb
            (fun i => (i =? 19)
                      || match read rsqrt_table i with
                         | Some v => nearest_seed i v
                         | None => false
                         end)
            (map Z.of_nat (seq 0 32)) = true) by (vm_compute; reflexivity).
  rewrite forallb_forall in Hall.
  assert (Hin : In e (map Z.of_nat (seq 0 32))).
  { apply in_map_iff. exists (Z.to_nat e). split; [lia|]. apply in_seq. lia. }
  specialize (Hall e Hin).
  destruct (Z.eqb_spec e 19); [contradiction|]. cbn [orb] in Hall.
  destruct (read rsqrt_table e) as [v|]; [|discriminate].
  exists v. split; [reflexivity|].
  apply nearest_seed_spec; assumption.
Qed.

End SeedTable.

(** C9.  The entry at index 19 is 90, but [2^16 / sqrt (2^19)] is
    90.5097..., whose nearest integer is 91 and not 90: the table departs
    there from the rounding that gives its 31 other entries. *)
Theorem rsqrt_table_entry_19 :
  read rsqrt_table 19 = Some 90
  /\ ~ nearest_integer 90 (real_seed 19)
  /\ nearest_integer 91 (real_seed 19).
Proof.
  split; [reflexivity|]. split.
  - intros H. apply nearest_seed_spec in H; [|lia]. discriminate H.
  - apply nearest_seed_spec; [lia|reflexivity].
Qed.

(** * Further properties of the arithmetic primitives *)

Section Primitives.

Lemma in_range_bounds (z : Z) : U32.in_range z <-> 0 <= z < 2 ^ 32.
Proof.
  unfold U32.in_range, U32.modulus. reflexivity.
Qed.

Lemma udiv_div (a b : Z) :
  U32.in_range a -> U32.in_range b -> b <> 0 -> udiv a b = a / b.
Proof.
  intros Ha Hb Hnz. unfold udiv.
  destruct (Z.eqb_spec b 0); [contradiction|].
  rewrite udiv_loop_result by assumption. reflexivity.
Qed.

Lemma umod_mod (a b : Z) :
  U32.in_range a -> U32.in_range b -> b <> 0 -> umod a b = a mod b.
Proof.
  intros Ha Hb Hnz. unfold umod.
  destruct (Z.eqb_spec b 0); [contradiction|].
  rewrite (umod_loop_udiv_loop a b 32 0 0).
  rewrite udiv_loop_result by assumption. reflexivity.
Qed.

Lemma div_range (a b : Z) :
  U32.in_range a -> 0 < b -> U32.in_range (a / b).
Proof.
  rewrite !in_range_bounds. intros Ha Hb.
  split; [apply Z.div_pos; lia|].
  apply Z.div_lt_upper_bound; nia.
Qed.

(** With too little fuel the loop of [umul] is still running. *)
Lemma umul_loop_short (fuel : nat) :
  forall a b result,
    2 ^ Z.of_nat fuel <= b -> umul_loop fuel a b result = None.
Proof.
  induction fuel as [|fuel IH]; intros a b result Hb.
  - change (2 ^ Z.of_nat 0) with 1 in Hb. cbn [umul_loop].
    destruct (Z.eqb_spec b 0); [lia|reflexivity].
  - rewrite Nat2Z.inj_succ, Z.pow_succ_r in Hb by lia.
    assert (0 < 2 ^ Z.of_nat fuel) by (apply Z.pow_pos_nonneg; lia).
    cbn [umul_loop]. destruct (Z.eqb_spec b 0); [lia|].
    apply IH. rewrite shr_div by lia. change (2 ^ 1) with 2.
    apply Z.div_le_lower_bound; lia.
Qed.

Lemma mul32x32_words (a b : Z) :
  U32.in_range a -> U32.in_range b ->
  mul32x32 a b = ((a * b) / 2 ^ 32, (a * b) mod 2 ^ 32).
Proof.
  intros Ha Hb.
  destruct (mul32x32_exact a b Ha Hb) as (E & Hhi & Hlo).
  destruct (mul32x32 a b) as [hi lo]. cbn [fst snd] in *.
  rewrite in_range_bounds in Hhi, Hlo.
  f_equal.
  - apply (Z.div_unique_pos (a * b) (2 ^ 32) hi lo); lia.
  - apply (Z.mod_unique_pos (a * b) (2 ^ 32) hi lo); lia.
Qed.

End Primitives.

(** X1.  [__mulsi3] is multiplication modulo [2^32]: it is commutative and
    associative, 1 is neutral and 0 absorbing. *)
Theorem mulsi3_ring_laws (a b c : Z) :
  U32.in_range a -> U32.in_range b -> U32.in_range c ->
  __mulsi3 a b = Some ((a * b) mod 2 ^ 32)
  /\ __mulsi3 a b = __mulsi3 b a
  /\ (ab <- __mulsi3 a b ;; __mulsi3 ab c)
     = (bc <- __mulsi3 b c ;; __mulsi3 a bc)
  /\ __mulsi3 a 1 = Some a
  /\ __mulsi3 a 0 = Some 0.
Proof.
  intros Ha Hb Hc. unfold __mulsi3.
  rewrite !umul_total by (assumption || apply wrap_range ||
                          (rewrite in_range_bounds; lia)).
  cbn [bind].
  rewrite !umul_total by (assumption || apply wrap_range).
  unfold U32.wrap, U32.modulus.
  split; [reflexivity|].
  split; [f_equal; f_equal; ring|].
  split.
  { f_equal. rewrite Zmult_mod_idemp_l, Zmult_mod_idemp_r.
    f_equal. ring. }
  rewrite in_range_bounds in Ha.
  split; f_equal.
  - rewrite Z.mul_1_r. apply Z.mod_small. assumption.
  - rewrite Z.mul_0_r. reflexivity.
Qed.

Lemma mulsi3_ring_laws_witness :
  __mulsi3 65537 65539 = Some ((65537 * 65539) mod 2 ^ 32)
  /\ __mulsi3 65537 65539 = __mulsi3 65539 65537
  /\ (ab <- __mulsi3 65537 65539 ;; __mulsi3 ab 4294967295)
     = (bc <- __mulsi3 65539 4294967295 ;; __mulsi3 65537 bc)
  /\ __mulsi3 65537 1 = Some 65537
  /\ __mulsi3 65537 0 = Some 0.
Proof.
  apply (mulsi3_ring_laws 65537 65539 4294967295);
    rewrite in_range_bounds; lia.
Defined.

(** X2.  The loop of [umul] runs once per bit of [b] up to its highest set
    bit: for [b > 0] it ends exactly when the fuel exceeds [Z.log2 b]. *)
Theorem umul_loop_iterations (fuel : nat) (a b result : Z) :
  0 < b -> U32.in_range result ->
  (Z.of_nat fuel <= Z.log2 b -> umul_loop fuel a b result = None)
  /\ (Z.log2 b < Z.of_nat fuel ->
      umul_loop fuel a b result = Some (U32.wrap (result + a * b))).
Proof.
  intros Hb Hr. split; intros Hf.
  - apply umul_loop_short.
    apply Z.le_trans with (2 ^ Z.log2 b).
    + apply Z.pow_le_mono_r; lia.
    + apply Z.log2_spec. assumption.
  - apply umul_loop_spec; [|assumption].
    split; [lia|]. apply Z.log2_lt_pow2; assumption.
Qed.

Lemma umul_loop_iterations_witness :
  umul_loop 3 5 12 0 = None
  /\ umul_loop 4 5 12 0 = Some (U32.wrap (0 + 5 * 12)).
Proof.
  assert (Hb : 0 < 12) by lia.
  assert (Hr : U32.in_range 0) by (rewrite in_range_bounds; lia).
  split.
  - apply (proj1 (umul_loop_iterations 3 5 12 0 Hb Hr)). cbn. lia.
  - apply (proj2 (umul_loop_iterations 4 5 12 0 Hb Hr)). cbn. lia.
Defined.

(** X3.  The two multipliers agree: the words of [mul32x32 a b] are
    [(a * b) / 2^32] and [(a * b) mod 2^32], and the low word is what
    [umul a b] returns. *)
Theorem mul32x32_umul_agree (a b : Z) :
  U32.in_range a -> U32.in_range b ->
  mul32x32 a b = ((a * b) / 2 ^ 32, (a * b) mod 2 ^ 32)
  /\ umul a b = Some (snd (mul32x32 a b))
  /\ mul32x32 a b = mul32x32 b a.
Proof.
  intros Ha Hb.
  rewrite (mul32x32_words a b), (mul32x32_words b a) by assumption.
  split; [reflexivity|]. split.
  - rewrite umul_total by assumption. reflexivity.
  - rewrite (Z.mul_comm b a). reflexivity.
Qed.

Lemma mul32x32_umul_agree_witness :
  mul32x32 123456789 987654321
  = ((123456789 * 987654321) / 2 ^ 32, (123456789 * 987654321) mod 2 ^ 32)
  /\ umul 123456789 987654321 = Some (snd (mul32x32 123456789 987654321))
  /\ mul32x32 123456789 987654321 = mul32x32 987654321 123456789.
Proof.
  apply (mul32x32_umul_agree 123456789 987654321);
    rewrite in_range_bounds; lia.
Defined.

(** X4.  Division undone by the software multiplier: for a nonzero divisor,
    [umul (udiv a b) b + umod a b] gives back [a] in 32-bit arithmetic,
    the remainder is below the divisor and the quotient is at most the
    dividend. *)
Theorem udiv_umul_roundtrip (a b : Z) :
  U32.in_range a -> U32.in_range b -> b <> 0 ->
  (p <- umul (udiv a b) b ;; Some (U32.add p (umod a b))) = Some a
  /\ 0 <= umod a b < b
  /\ 0 <= udiv a b <= a.
Proof.
  intros Ha Hb Hnz.
  rewrite udiv_div, umod_mod by assumption.
  rewrite in_range_bounds in Ha, Hb.
  assert (Hb0 : 0 < b) by lia.
  pose proof (Z.div_mod a b Hnz) as E.
  pose proof (Z.mod_pos_bound a b Hb0) as Hm.
  assert (Hq : 0 <= a / b) by (apply Z.div_pos; lia).
  assert (Hqa : a / b <= a) by (apply Z.div_le_upper_bound; nia).
  rewrite umul_total by (rewrite in_range_bounds; lia).
  cbn [bind]. unfold U32.add. rewrite wrap_add_l.
  replace (a / b * b + a mod b) with a by lia.
  rewrite wrap_small by (rewrite in_range_bounds; lia).
  repeat split; lia.
Qed.

Lemma udiv_umul_roundtrip_witness :
  (p <- umul (udiv 4000000000 48611) 48611 ;;
   Some (U32.add p (umod 4000000000 48611))) = Some 4000000000
  /\ 0 <= umod 4000000000 48611 < 48611
  /\ 0 <= udiv 4000000000 48611 <= 4000000000.
Proof.
  apply (udiv_umul_roundtrip 4000000000 48611);
    [rewrite in_range_bounds; lia|rewrite in_range_bounds; lia|lia].
Defined.

(** X5.  [clz] never increases when its argument grows: for
    [0 < x <= y < 2^32], [clz y <= clz x]. *)
Theorem clz_antitone (x y : Z) :
  0 < x -> x <= y -> y < 2 ^ 32 -> clz y <= clz x.
Proof.
  intros Hx Hxy Hy.
  rewrite (clz_log2 x), (clz_log2 y) by lia.
  pose proof (Z.log2_le_mono x y Hxy). lia.
Qed.

Lemma clz_antitone_witness : clz 70000 <= clz 3.
Proof.
  apply (clz_antitone 3 70000); lia.
Defined.

(** X6.  Shifting a nonzero word left by its [clz] normalises it: no bit
    is lost and bit 31 of the result is set. *)
Theorem clz_normalises (x : Z) :
  0 < x < 2 ^ 32 ->
  U32.shl x (clz x) = x * 2 ^ clz x
  /\ 2 ^ 31 <= U32.shl x (clz x) < 2 ^ 32.
Proof.
  intros Hx. destruct (clz_bounds x Hx) as [Hc [Hlo Hhi]].
  assert (Hp : 0 < 2 ^ clz x) by (apply Z.pow_pos_nonneg; lia).
  assert (E31 : 2 ^ 31 = 2 ^ (31 - clz x) * 2 ^ clz x).
  { rewrite <- Z.pow_add_r by lia. f_equal. lia. }
  assert (E32 : 2 ^ 32 = 2 ^ (32 - clz x) * 2 ^ clz x).
  { rewrite <- Z.pow_add_r by lia. f_equal. lia. }
  assert (Hb : 2 ^ 31 <= x * 2 ^ clz x < 2 ^ 32).
  { rewrite E31, E32. split.
    - apply Z.mul_le_mono_nonneg_r; lia.
    - apply Z.mul_lt_mono_pos_r; lia. }
  rewrite shl_exact by lia. split; [reflexivity|exact Hb].
Qed.

Lemma clz_normalises_witness :
  U32.shl 40000 (clz 40000) = 40000 * 2 ^ clz 40000
  /\ 2 ^ 31 <= U32.shl 40000 (clz 40000) < 2 ^ 32.
Proof.
  apply (clz_normalises 40000). lia.
Defined.

(** * The Newton step computes the 64-bit formula *)

Section Newton.

(** [(hi << (32 - k)) | (lo >> k)] is the 64-bit value [hi:lo] shifted
    right by [k], truncated to 32 bits. *)
Lemma lor_shl_shr (hi lo k : Z) :
  0 < k < 32 -> 0 <= hi -> U32.in_range lo ->
  Z.lor (U32.shl hi (32 - k)) (U32.shr lo k)
  = ((hi * 2 ^ 32 + lo) / 2 ^ k) mod 2 ^ 32.
Proof.
  rewrite in_range_bounds. intros Hk Hhi Hlo.
  assert (Hpk : 0 < 2 ^ k) by (apply Z.pow_pos_nonneg; lia).
  assert (Hpc : 0 < 2 ^ (32 - k)) by (apply Z.pow_pos_nonneg; lia).
  assert (E32 : 2 ^ 32 = 2 ^ k * 2 ^ (32 - k)).
  { rewrite <- Z.pow_add_r by lia. f_equal. lia. }
  rewrite shl_mul, shr_div by lia.
  assert (Hq : 0 <= lo / 2 ^ k < 2 ^ (32 - k)).
  { split; [apply Z.div_pos; lia|].
    apply Z.div_lt_upper_bound; [lia|]. rewrite <- E32. lia. }
  assert (Ehigh : (hi * 2 ^ (32 - k)) mod 2 ^ 32
                  = hi mod 2 ^ k * 2 ^ (32 - k)).
  { rewrite E32. apply Z.mul_mod_distr_r; lia. }
  pose proof (Z.mod_pos_bound hi (2 ^ k) Hpk) as Hm.
  rewrite Ehigh, lor_high_low by lia.
  replace (hi * 2 ^ 32 + lo) with (hi * 2 ^ (32 - k) * 2 ^ k + lo)
    by (rewrite E32; ring).
  rewrite Z.div_add_l by lia.
  rewrite <- Zplus_mod_idemp_l, Ehigh.
  symmetry. apply Z.mod_small.
  split; [nia|]. rewrite E32. nia.
Qed.

(** [xy2] is [x * y^2 >> 16], truncated to 32 bits. *)
Lemma newton_xy2 (y x : Z) :
  U32.in_range y -> U32.in_range x ->
  let '(y2_hi, y2_lo) := mul32x32 y y in
  let '(_, lo1) := mul32x32 x y2_hi in
  let '(hi2, lo2) := mul32x32 x y2_lo in
  U32.add (U32.shl lo1 16) (Z.lor (U32.shl hi2 16) (U32.shr lo2 16))
  = ((x * y * y) / 2 ^ 16) mod 2 ^ 32.
Proof.
  intros Hy Hx.
  rewrite (mul32x32_words y y) by assumption.
  assert (Hlo : U32.in_range ((y * y) mod 2 ^ 32)) by apply wrap_range.
  assert (Hhi : U32.in_range ((y * y) / 2 ^ 32)).
  { rewrite in_range_bounds in *. split; [apply Z.div_pos; nia|].
    apply Z.div_lt_upper_bound; nia. }
  rewrite !mul32x32_words by assumption.
  pose proof (Z.div_mod (y * y) (2 ^ 32) ltac:(lia)) as Ey.
  set (h := (y * y) / 2 ^ 32) in *. set (l := (y * y) mod 2 ^ 32) in *.
  pose proof (Z.div_mod (x * h) (2 ^ 32) ltac:(lia)) as Eh.
  pose proof (Z.div_mod (x * l) (2 ^ 32) ltac:(lia)) as El.
  set (hi1 := (x * h) / 2 ^ 32) in *. set (lo1 := (x * h) mod 2 ^ 32) in *.
  set (hi2 := (x * l) / 2 ^ 32) in *. set (lo2 := (x * l) mod 2 ^ 32) in *.
  assert (Hhi2 : 0 <= hi2).
  { unfold hi2. rewrite in_range_bounds in *. apply Z.div_pos; nia. }
  assert (Hlo2 : U32.in_range lo2) by apply wrap_range.
  change 16 with (32 - 16) at 2.
  rewrite lor_shl_shr by (assumption || lia).
  replace (hi2 * 2 ^ 32 + lo2) with (x * l) by lia.
  unfold U32.add, U32.wrap, U32.modulus.
  rewrite shl_mul by lia. rewrite <- Z.add_mod by lia.
  replace (x * y * y) with (hi1 * 2 ^ 32 * 2 ^ 32 + (lo1 * 2 ^ 32 + x * l))
    by (replace (x * y * y) with (x * (y * y)) by ring; rewrite Ey; nia).
  replace (hi1 * 2 ^ 32 * 2 ^ 32 + (lo1 * 2 ^ 32 + x * l))
    with ((hi1 * 2 ^ 32 * 2 ^ 16 + lo1 * 2 ^ 16) * 2 ^ 16 + x * l)
    by (change (2 ^ 32) with (2 ^ 16 * 2 ^ 16); ring).
  rewrite Z.div_add_l by lia.
  replace (hi1 * 2 ^ 32 * 2 ^ 16 + lo1 * 2 ^ 16 + x * l / 2 ^ 16)
    with (lo1 * 2 ^ 16 + x * l / 2 ^ 16 + hi1 * 2 ^ 16 * 2 ^ 32) by ring.
  rewrite Z.mod_add by lia. reflexivity.
Qed.

(** The closing lines: add the rounding bias to [hi:lo] with carry, then
    shift right by 17. *)
Lemma newton_round (hi lo : Z) :
  0 <= hi <= 2 ^ 32 - 2 -> U32.in_range lo ->
  let lo_plus := U32.add lo (U32.shl 1 16) in
  let hi_plus := U32.add hi (U32.b2z (lo_plus <? lo)) in
  Z.lor (U32.shl hi_plus 15) (U32.shr lo_plus 17)
  = ((hi * 2 ^ 32 + lo + 2 ^ 16) / 2 ^ 17) mod 2 ^ 32.
Proof.
  rewrite in_range_bounds. intros Hhi Hlo. cbv zeta.
  change (U32.shl 1 16) with (2 ^ 16).
  unfold U32.add, U32.wrap, U32.modulus.
  assert (Hcarry :
    let c := U32.b2z ((lo + 2 ^ 16) mod 2 ^ 32 <? lo) in
    0 <= c <= 1 /\ (lo + 2 ^ 16) mod 2 ^ 32 = lo + 2 ^ 16 - c * 2 ^ 32).
  { cbv zeta. destruct (Z_lt_le_dec (lo + 2 ^ 16) (2 ^ 32)) as [Hs|Hb].
    - rewrite Z.mod_small by lia.
      destruct (Z.ltb_spec (lo + 2 ^ 16) lo); [lia|]. cbn. lia.
    - replace ((lo + 2 ^ 16) mod 2 ^ 32) with (lo + 2 ^ 16 - 2 ^ 32).
      + destruct (Z.ltb_spec (lo + 2 ^ 16 - 2 ^ 32) lo); [|lia]. cbn. lia.
      + apply (Z.mod_unique_pos _ _ 1); lia. }
  cbv zeta in Hcarry. destruct Hcarry as [Hc Elo].
  set (c := U32.b2z ((lo + 2 ^ 16) mod 2 ^ 32 <? lo)) in *.
  rewrite (Z.mod_small (hi + c)) by lia.
  change 15 with (32 - 17).
  rewrite lor_shl_shr; [|lia|lia|apply wrap_range].
  f_equal. f_equal. rewrite Elo. ring.
Qed.

Lemma newton_step_formula (y x : Z) :
  U32.in_range y -> U32.in_range x ->
  newton_step_q16_inline y x
  = ((y * newton_term y x + 2 ^ 16) / 2 ^ 17) mod 2 ^ 32.
Proof.
  intros Hy Hx. unfold newton_step_q16_inline.
  pose proof (newton_xy2 y x Hy Hx) as Hxy2.
  destruct (mul32x32 y y) as [y2_hi y2_lo].
  destruct (mul32x32 x y2_hi) as [hi1 lo1].
  destruct (mul32x32 x y2_lo) as [hi2 lo2].
  rewrite Hxy2.
  assert (Et : U32.sub (U32.shl 3 16) ((x * y * y / 2 ^ 16) mod 2 ^ 32)
               = newton_term y x).
  { unfold newton_term, U32.sub, U32.wrap, U32.modulus.
    change (U32.shl 3 16) with (3 * 2 ^ 16).
    rewrite Zminus_mod_idemp_r. reflexivity. }
  rewrite Et.
  assert (Ht : U32.in_range (newton_term y x)) by apply wrap_range.
  rewrite (mul32x32_words y (newton_term y x)) by assumption.
  set (t := newton_term y x) in *.
  pose proof (Z.div_mod (y * t) (2 ^ 32) ltac:(lia)) as E.
  rewrite newton_round.
  - replace (y * t / 2 ^ 32 * 2 ^ 32 + (y * t) mod 2 ^ 32) with (y * t)
      by lia.
    reflexivity.
  - rewrite in_range_bounds in *. split; [apply Z.div_pos; nia|].
    assert (y * t / 2 ^ 32 < 2 ^ 32 - 1); [|lia].
    apply Z.div_lt_upper_bound; nia.
  - apply wrap_range.
Qed.

End Newton.

(** X7.  The Newton step computes, through 32-bit words only, the value
    [(y * term + 2^16) >> 17] truncated to 32 bits, where [term] is
    [3 * 2^16 - (x * y^2 >> 16)] truncated to 32 bits and both products
    are exact 64-bit (and wider) products. *)
Theorem newton_step_exact (y x : Z) :
  U32.in_range y -> U32.in_range x ->
  newton_step_q16_inline y x
  = ((y * ((3 * 2 ^ 16 - (x * y * y) / 2 ^ 16) mod 2 ^ 32) + 2 ^ 16)
     / 2 ^ 17) mod 2 ^ 32.
Proof.
  intros Hy Hx. apply (newton_step_formula y x Hy Hx).
Qed.

Lemma newton_step_exact_witness :
  newton_step_q16_inline 39555 3
  = ((39555 * ((3 * 2 ^ 16 - (3 * 39555 * 39555) / 2 ^ 16) mod 2 ^ 32)
      + 2 ^ 16) / 2 ^ 17) mod 2 ^ 32.
Proof.
  apply (newton_step_exact 39555 3); rewrite in_range_bounds; lia.
Defined.

(** X8.  An exact root is a fixed point of the Newton step: when
    [x * y^2 = 2^32], that is [y] is exactly [2^16 / sqrt x], the step
    returns [y]. *)
Theorem newton_step_fixed_point (y x : Z) :
  U32.in_range y -> U32.in_range x ->
  x * y * y = 2 ^ 32 ->
  newton_step_q16_inline y x = y.
Proof.
  intros Hy Hx E.
  rewrite newton_step_formula by assumption.
  unfold newton_term. rewrite E.
  change (U32.wrap (3 * 2 ^ 16 - 2 ^ 32 / 2 ^ 16)) with (1 * 2 ^ 17).
  rewrite in_range_bounds in Hy.
  replace (y * (1 * 2 ^ 17) + 2 ^ 16) with (y * 2 ^ 17 + 2 ^ 16) by ring.
  rewrite Z.div_add_l by lia.
  change (2 ^ 16 / 2 ^ 17) with 0. rewrite Z.add_0_r.
  apply Z.mod_small. assumption.
Qed.

Lemma newton_step_fixed_point_witness :
  newton_step_q16_inline 4096 256 = 4096.
Proof.
  apply (newton_step_fixed_point 4096 256);
    [rewrite in_range_bounds; lia|rewrite in_range_bounds; lia|reflexivity].
Defined.

(** * The estimator, bucket by bucket *)

Section Buckets.

Lemma rsqrt_bucket (x : Z) :
  0 < x < 2 ^ 32 ->
  0 <= rsqrt_exp x <= 31 /\ 2 ^ rsqrt_exp x <= x < 2 ^ (rsqrt_exp x + 1).
Proof.
  intros Hx. destruct (rsqrt_exp_range x Hx) as [Ee He].
  destruct (clz_bounds x Hx) as [_ [Hlo Hhi]].
  split; [exact He|]. rewrite Ee.
  replace (31 - clz x + 1) with (32 - clz x) by lia.
  split; assumption.
Qed.

Lemma bucket_ok_all (e : Z) : 0 <= e <= 31 -> bucket_ok e = true.
Proof.
  intros He.
  assert (Hall : forallb bucket_ok (map Z.of_nat (seq 0 32)) = true)
    by (vm_compute; reflexivity).
  rewrite forallb_forall in Hall. apply Hall.
  apply in_map_iff. exists (Z.to_nat e). split; [lia|]. apply in_seq. lia.
Qed.

Lemma bucket_facts (e : Z) :
  0 <= e <= 31 ->
  exists y_base y_next,
    read rsqrt_table e = Some y_base
    /\ rsqrt_y_next e = Some y_next
    /\ 1 <= y_next <= y_base /\ y_base <= 2 ^ 16
    /\ (2 ^ (e + 1) - 1) * y_base * y_base < 3 * 2 ^ 32
    /\ 2 ^ 16 <= y_next * (3 * 2 ^ 16
                           - ((2 ^ (e + 1) - 1) * y_base * y_base) / 2 ^ 16)
    /\ (2 <= e -> y_base <= 2 ^ 15).
Proof.
  intros He. pose proof (bucket_ok_all e He) as H. unfold bucket_ok in H.
  destruct (read rsqrt_table e) as [yb|]; [|discriminate].
  destruct (rsqrt_y_next e) as [yn|]; [|discriminate].
  rewrite !andb_true_iff, orb_true_iff in H.
  destruct H as [[[[[H1 H2] H3] H4] H5] H6].
  apply Z.leb_le in H1, H2, H3, H5. apply Z.ltb_lt in H4.
  exists yb, yn. repeat split; try assumption.
  intros H2e. destruct H6 as [H6|H6].
  - apply Z.ltb_lt in H6. lia.
  - apply Z.leb_le in H6. exact H6.
Qed.

Lemma rsqrt_fraction_value (x : Z) :
  0 < x < 2 ^ 32 ->
  let e := rsqrt_exp x in
  rsqrt_fraction x e = Some (((x - 2 ^ e) * 2 ^ 16) / 2 ^ e)
  /\ 0 <= ((x - 2 ^ e) * 2 ^ 16) / 2 ^ e < 2 ^ 16.
Proof.
  intros Hx. cbv zeta.
  destruct (rsqrt_bucket x Hx) as [He [Hlo Hhi]].
  set (e := rsqrt_exp x) in *.
  assert (Hpe : 0 < 2 ^ e) by (apply Z.pow_pos_nonneg; lia).
  rewrite Z.pow_add_r, Z.pow_1_r in Hhi by lia.
  assert (Hpe32 : 2 ^ e < 2 ^ 32) by (apply Z.pow_lt_mono_r; lia).
  unfold rsqrt_fraction.
  rewrite shl_checked_in_bounds by lia. cbn [bind].
  rewrite (shl_exact 1 e) by lia. rewrite Z.mul_1_l.
  unfold U32.sub at 1 2.
  rewrite wrap_small by (rewrite in_range_bounds; lia).
  set (d := x - 2 ^ e) in *.
  assert (Hd : 0 <= d < 2 ^ e) by (unfold d; lia).
  destruct (Z_lt_le_dec e 16) as [Hlow|Hhigh].
  - destruct (fraction_shift_low e ltac:(lia)) as [-> Hn].
    assert (Hps : 0 < 2 ^ (16 - e)) by (apply Z.pow_pos_nonneg; lia).
    assert (E16 : 2 ^ 16 = 2 ^ (16 - e) * 2 ^ e).
    { rewrite <- Z.pow_add_r by lia. f_equal. lia. }
    assert (Hprod : d * 2 ^ (16 - e) < 2 ^ 16).
    { rewrite E16. rewrite (Z.mul_comm (2 ^ (16 - e))).
      apply Z.mul_lt_mono_pos_r; lia. }
    assert (Eq : d * 2 ^ 16 / 2 ^ e = d * 2 ^ (16 - e)).
    { rewrite E16, Z.mul_assoc. apply Z.div_mul. lia. }
    rewrite shl_checked_in_bounds by lia.
    rewrite shl_exact by lia. rewrite Eq.
    split; [reflexivity|nia].
  - destruct (fraction_shift_high e ltac:(lia)) as [-> Hn].
    assert (Hps : 0 < 2 ^ (e - 16)) by (apply Z.pow_pos_nonneg; lia).
    assert (Ee : 2 ^ e = 2 ^ (e - 16) * 2 ^ 16).
    { rewrite <- Z.pow_add_r by lia. f_equal. lia. }
    assert (Eq : d * 2 ^ 16 / 2 ^ e = d / 2 ^ (e - 16)).
    { rewrite Ee. apply Z.div_mul_cancel_r; lia. }
    rewrite shr_checked_in_bounds by lia.
    rewrite shr_div by lia. rewrite Eq.
    split; [reflexivity|].
    split; [apply Z.div_pos; lia|].
    apply Z.div_lt_upper_bound; [lia|]. rewrite <- Ee. lia.
Qed.

Lemma rsqrt_seed_value (x y_base y_next : Z) :
  0 < x < 2 ^ 32 ->
  read rsqrt_table (rsqrt_exp x) = Some y_base ->
  rsqrt_y_next (rsqrt_exp x) = Some y_next ->
  let e := rsqrt_exp x in
  let fraction := ((x - 2 ^ e) * 2 ^ 16) / 2 ^ e in
  let y := y_base - ((y_base - y_next) * fraction) / 2 ^ 16 in
  rsqrt_seed x = Some y /\ y_next <= y <= y_base.
Proof.
  intros Hx Eb En. cbv zeta.
  destruct (rsqrt_bucket x Hx) as [He _].
  destruct (rsqrt_fraction_value x Hx) as [Ef Hf]. cbv zeta in Ef, Hf.
  destruct (bucket_facts _ He) as (yb & yn & Eb' & En' & Hyn & Hyb & _).
  rewrite Eb in Eb'. rewrite En in En'.
  injection Eb' as <-. injection En' as <-.
  set (f := (x - 2 ^ rsqrt_exp x) * 2 ^ 16 / 2 ^ rsqrt_exp x) in *.
  assert (Hq : 0 <= (y_base - y_next) * f / 2 ^ 16 <= y_base - y_next).
  { split; [apply Z.div_pos; nia|].
    apply Z.div_le_upper_bound; nia. }
  unfold rsqrt_seed. cbv zeta. rewrite Eb, En, Ef. cbn [bind].
  rewrite umul_total by (rewrite in_range_bounds; lia). cbn [bind].
  unfold U32.sub at 2.
  rewrite (wrap_small (y_base - y_next)) by (rewrite in_range_bounds; lia).
  rewrite (wrap_small ((y_base - y_next) * f))
    by (rewrite in_range_bounds; nia).
  rewrite shr_div by lia.
  unfold U32.sub. rewrite wrap_small by (rewrite in_range_bounds; lia).
  split; [reflexivity|lia].
Qed.

(** Inside [rsqrt] the Newton step never wraps. *)
Lemma rsqrt_newton_no_wrap (x y : Z) :
  0 < x < 2 ^ 32 -> rsqrt_seed x = Some y ->
  1 <= y <= 2 ^ 16
  /\ x * y * y < 3 * 2 ^ 32
  /\ newton_step_q16_inline y x
     = (y * (3 * 2 ^ 16 - (x * y * y) / 2 ^ 16) + 2 ^ 16) / 2 ^ 17
  /\ 2 ^ 16 <= y * (3 * 2 ^ 16 - (x * y * y) / 2 ^ 16)
  /\ (2 <= rsqrt_exp x -> y <= 2 ^ 15).
Proof.
  intros Hx Ey.
  destruct (rsqrt_bucket x Hx) as [He [Hlo Hhi]].
  destruct (bucket_facts _ He)
    as (yb & yn & Eb & En & Hyn & Hyb & Hmax & Hmin & Hsmall).
  destruct (rsqrt_seed_value x yb yn Hx Eb En) as [Ey' Hy].
  cbv zeta in Ey', Hy.
  match type of Hy with
  | _ <= ?s <= _ => assert (Es : y = s) by congruence
  end.
  rewrite <- Es in Hy. clear Ey' Es.
  set (e := rsqrt_exp x) in *.
  set (B := (2 ^ (e + 1) - 1) * yb * yb) in *.
  assert (Hxyy : 0 <= x * y * y <= B).
  { split; [nia|]. unfold B.
    apply Z.le_trans with ((2 ^ (e + 1) - 1) * y * y).
    - apply Z.mul_le_mono_nonneg_r; [lia|].
      apply Z.mul_le_mono_nonneg_r; lia.
    - rewrite <- !Z.mul_assoc. apply Z.mul_le_mono_nonneg_l; [lia|].
      apply Z.mul_le_mono_nonneg; lia. }
  assert (Hq : 0 <= x * y * y / 2 ^ 16 <= B / 2 ^ 16).
  { split; [apply Z.div_pos; lia|apply Z.div_le_mono; lia]. }
  assert (HBq : B / 2 ^ 16 < 3 * 2 ^ 16).
  { apply Z.div_lt_upper_bound; lia. }
  set (q := x * y * y / 2 ^ 16) in *.
  assert (Hyt : 2 ^ 16 <= y * (3 * 2 ^ 16 - q)).
  { apply Z.le_trans with (yn * (3 * 2 ^ 16 - B / 2 ^ 16)); [exact Hmin|].
    apply Z.mul_le_mono_nonneg; lia. }
  split; [lia|]. split; [lia|].
  split; [|split; [exact Hyt|intros H2; specialize (Hsmall H2); lia]].
  rewrite newton_step_formula by (rewrite in_range_bounds; lia).
  unfold newton_term. fold q.
  rewrite wrap_small by (rewrite in_range_bounds; lia).
  apply Z.mod_small.
  split; [apply Z.div_pos; nia|].
  apply Z.div_lt_upper_bound; nia.
Qed.

End Buckets.

Section Estimator.

Lemma rsqrt_exp_log2 (x : Z) : 0 < x < 2 ^ 32 -> rsqrt_exp x = Z.log2 x.
Proof.
  intros Hx. destruct (rsqrt_exp_range x Hx) as [-> _].
  rewrite (clz_log2 x Hx). lia.
Qed.

Lemma rsqrt_general (x : Z) :
  0 < x < 2 ^ 32 - 1 ->
  rsqrt x = (y <- rsqrt_seed x ;; Some (newton_step_q16_inline y x)).
Proof.
  intros Hx. unfold rsqrt.
  destruct (Z.eqb_spec x 0); [lia|].
  destruct (Z.eqb_spec x U32.max) as [E|]; [unfold U32.max in E; lia|].
  reflexivity.
Qed.

Lemma rsqrt_interior_range (x r : Z) :
  0 < x < 2 ^ 32 - 1 -> rsqrt x = Some r -> 1 <= r <= 2 ^ 16.
Proof.
  intros Hx Er.
  destruct (Z_lt_le_dec x 4) as [Hsmall|Hbig].
  { assert (Hc : x = 1 \/ x = 2 \/ x = 3) by lia.
    destruct Hc as [->|[->| ->]]; vm_compute in Er;
      injection Er as <-; lia. }
  rewrite rsqrt_general in Er by assumption.
  destruct (rsqrt_seed x) as [y|] eqn:Ey; [|discriminate].
  cbn [bind] in Er.
  destruct (rsqrt_newton_no_wrap x y ltac:(lia) Ey)
    as (Hy & Hxyy & En & Hlow & Hsmall).
  assert (He : 2 <= rsqrt_exp x).
  { rewrite rsqrt_exp_log2 by lia. change 2 with (Z.log2 4).
    apply Z.log2_le_mono. assumption. }
  specialize (Hsmall He).
  assert (Hq : 0 <= x * y * y / 2 ^ 16) by (apply Z.div_pos; nia).
  set (q := x * y * y / 2 ^ 16) in *.
  assert (r = (y * (3 * 2 ^ 16 - q) + 2 ^ 16) / 2 ^ 17) by congruence.
  subst r. split.
  - apply Z.div_le_lower_bound; lia.
  - apply Z.div_le_upper_bound; [lia|]. nia.
Qed.

End Estimator.

(** X9.  In both branches the fraction is the position of [x] inside its
    bucket scaled to 16 bits: with [e = 31 - clz x],
    [fraction = floor ((x - 2^e) * 2^16 / 2^e)], and it is below [2^16]. *)
Theorem rsqrt_fraction_closed_form (x : Z) :
  0 < x < 2 ^ 32 ->
  let e := rsqrt_exp x in
  e = Z.log2 x
  /\ rsqrt_fraction x e = Some (((x - 2 ^ e) * 2 ^ 16) / 2 ^ e)
  /\ 0 <= ((x - 2 ^ e) * 2 ^ 16) / 2 ^ e < 2 ^ 16.
Proof.
  intros Hx. cbv zeta.
  split; [apply rsqrt_exp_log2, Hx|].
  apply (rsqrt_fraction_value x Hx).
Qed.

Lemma rsqrt_fraction_closed_form_witness :
  rsqrt_exp 100000 = Z.log2 100000
  /\ rsqrt_fraction 100000 (rsqrt_exp 100000)
     = Some (((100000 - 2 ^ rsqrt_exp 100000) * 2 ^ 16)
             / 2 ^ rsqrt_exp 100000)
  /\ 0 <= ((100000 - 2 ^ rsqrt_exp 100000) * 2 ^ 16)
          / 2 ^ rsqrt_exp 100000 < 2 ^ 16.
Proof.
  apply (rsqrt_fraction_closed_form 100000). lia.
Defined.

(** X10.  The seed is the linear interpolation
    [y_base - floor ((y_base - y_next) * fraction / 2^16)] with no
    wrap-around, and it lies between the two table entries it
    interpolates. *)
Theorem rsqrt_seed_interpolates (x y_base y_next : Z) :
  0 < x < 2 ^ 32 ->
  read rsqrt_table (rsqrt_exp x) = Some y_base ->
  rsqrt_y_next (rsqrt_exp x) = Some y_next ->
  let e := rsqrt_exp x in
  let fraction := ((x - 2 ^ e) * 2 ^ 16) / 2 ^ e in
  let y := y_base - ((y_base - y_next) * fraction) / 2 ^ 16 in
  rsqrt_seed x = Some y /\ y_next <= y <= y_base.
Proof.
  intros Hx Eb En. apply (rsqrt_seed_value x y_base y_next Hx Eb En).
Qed.

Lemma rsqrt_seed_interpolates_witness :
  rsqrt_seed 3 = Some 39555 /\ 32768 <= 39555 <= 46341.
Proof.
  apply (rsqrt_seed_interpolates 3 46341 32768);
    [lia|reflexivity|reflexivity].
Defined.

(** X11.  On the general path nothing wraps: with [y] the seed,
    [x * y^2 < 3 * 2^32] and [rsqrt x] is exactly
    [floor ((y * (3 * 2^16 - floor (x * y^2 / 2^16)) + 2^16) / 2^17)]. *)
Theorem rsqrt_exact_formula (x y : Z) :
  0 < x < 2 ^ 32 - 1 -> rsqrt_seed x = Some y ->
  x * y * y < 3 * 2 ^ 32
  /\ rsqrt x
     = Some ((y * (3 * 2 ^ 16 - (x * y * y) / 2 ^ 16) + 2 ^ 16) / 2 ^ 17).
Proof.
  intros Hx Ey.
  destruct (rsqrt_newton_no_wrap x y ltac:(lia) Ey) as (_ & Hxyy & En & _).
  split; [exact Hxyy|].
  rewrite rsqrt_general, Ey by assumption. cbn [bind].
  rewrite En. reflexivity.
Qed.

Lemma rsqrt_exact_formula_witness :
  3 * 39555 * 39555 < 3 * 2 ^ 32
  /\ rsqrt 3
     = Some ((39555 * (3 * 2 ^ 16 - (3 * 39555 * 39555) / 2 ^ 16) + 2 ^ 16)
             / 2 ^ 17).
Proof.
  apply (rsqrt_exact_formula 3 39555); [lia|reflexivity].
Defined.

(** X12.  [rsqrt] never returns 0, and for every nonzero input the result
    is at most [2^16], the Q16 representation of 1.0. *)
Theorem rsqrt_result_range (x : Z) :
  U32.in_range x ->
  exists r, rsqrt x = Some r /\ 1 <= r /\ (x <> 0 -> r <= 2 ^ 16).
Proof.
  intros Hx. destruct (rsqrt_defined x Hx) as (r & Er & _).
  exists r. split; [exact Er|].
  rewrite in_range_bounds in Hx.
  destruct (Z.eq_dec x 0) as [->|Hnz].
  { vm_compute in Er. injection Er as <-. split; [lia|contradiction]. }
  destruct (Z.eq_dec x (2 ^ 32 - 1)) as [->|Hmax].
  { vm_compute in Er. injection Er as <-. lia. }
  pose proof (rsqrt_interior_range x r ltac:(lia) Er). lia.
Qed.

Lemma rsqrt_result_range_witness :
  exists r, rsqrt 1 = Some r /\ 1 <= r /\ r <= 2 ^ 16.
Proof.
  assert (Hr : U32.in_range 1) by (rewrite in_range_bounds; lia).
  destruct (rsqrt_result_range 1 Hr) as (r & Er & Hlo & Hhi).
  exists r. split; [exact Er|]. split; [exact Hlo|]. apply Hhi. lia.
Defined.

(** X13.  The estimator saturates on the top bucket: [rsqrt x = 1] for
    every [x] from [2^31] up. *)
Theorem rsqrt_top_bucket (x : Z) :
  2 ^ 31 <= x < 2 ^ 32 -> rsqrt x = Some 1.
Proof.
  intros Hx.
  destruct (Z.eq_dec x (2 ^ 32 - 1)) as [->|Hmax]; [reflexivity|].
  assert (He : rsqrt_exp x = 31).
  { rewrite rsqrt_exp_log2 by lia. apply Z.log2_unique; lia. }
  assert (Eb : read rsqrt_table (rsqrt_exp x) = Some 1)
    by (rewrite He; reflexivity).
  assert (En : rsqrt_y_next (rsqrt_exp x) = Some 1)
    by (rewrite He; reflexivity).
  destruct (rsqrt_seed_value x 1 1 ltac:(lia) Eb En) as [Ey _].
  cbv zeta in Ey. rewrite Z.sub_diag, Z.mul_0_l in Ey.
  change (1 - 0 / 2 ^ 16) with 1 in Ey.
  destruct (rsqrt_newton_no_wrap x 1 ltac:(lia) Ey) as (_ & _ & En' & _).
  rewrite rsqrt_general, Ey by lia. cbn [bind]. rewrite En'.
  rewrite !Z.mul_1_r, Z.mul_1_l. f_equal.
  assert (Hq : 2 ^ 15 <= x / 2 ^ 16 < 2 ^ 16).
  { split; [apply Z.div_le_lower_bound; lia|
            apply Z.div_lt_upper_bound; lia]. }
  symmetry. apply (Z.div_unique_pos _ _ 1 (2 ^ 17 - x / 2 ^ 16)); lia.
Qed.

Lemma rsqrt_top_bucket_witness : rsqrt 3000000000 = Some 1.
Proof.
  apply (rsqrt_top_bucket 3000000000). lia.
Defined.

(** X14.  At the powers of four the estimate is exact:
    [rsqrt (4^k) = 2^(16 - k)] for [0 <= k <= 15]. *)
Theorem rsqrt_exact_at_powers_of_four (k : Z) :
  0 <= k <= 15 -> rsqrt (4 ^ k) = Some (2 ^ (16 - k)).
Proof.
  intros Hk.
  assert (Hall : forallb
            (fun i => match rsqrt (4 ^ i) with
                      | Some r => r =? 2 ^ (16 - i)
                      | None => false
                      end)
            (map Z.of_nat (seq 0 16)) = true) by (vm_compute; reflexivity).
  rewrite forallb_forall in Hall.
  assert (Hin : In k (map Z.of_nat (seq 0 16))).
  { apply in_map_iff. exists (Z.to_nat k). split; [lia|]. apply in_seq. lia. }
  specialize (Hall k Hin).
  destruct (rsqrt (4 ^ k)) as [r|]; [|discriminate].
  apply Z.eqb_eq in Hall. congruence.
Qed.

Lemma rsqrt_exact_at_powers_of_four_witness :
  rsqrt (4 ^ 15) = Some (2 ^ (16 - 15)).
Proof.
  apply (rsqrt_exact_at_powers_of_four 15). lia.
Defined.

(** X15.  At a power of two the interpolation adds nothing: for
    [0 <= e <= 31], [2^e] falls in bucket [e] and its seed is
    [rsqrt_table[e]] itself. *)
Theorem rsqrt_seed_at_power_of_two (e : Z) :
  0 <= e <= 31 ->
  rsqrt_exp (2 ^ e) = e /\ rsqrt_seed (2 ^ e) = read rsqrt_table e.
Proof.
  intros He.
  assert (Hp : 0 < 2 ^ e < 2 ^ 32).
  { split; [apply Z.pow_pos_nonneg; lia|apply Z.pow_lt_mono_r; lia]. }
  assert (Ee : rsqrt_exp (2 ^ e) = e).
  { rewrite rsqrt_exp_log2 by assumption. apply Z.log2_pow2. lia. }
  split; [exact Ee|].
  destruct (bucket_facts e He) as (yb & yn & Eb & En & _).
  destruct (rsqrt_seed_value (2 ^ e) yb yn Hp) as [Ey _];
    [rewrite Ee; assumption|rewrite Ee; assumption|].
  cbv zeta in Ey. rewrite Ee in Ey.
  rewrite Z.sub_diag, Z.mul_0_l, Z.div_0_l, Z.mul_0_r, Z.div_0_l in Ey
    by lia.
  rewrite Ey, Eb. f_equal. lia.
Qed.

Lemma rsqrt_seed_at_power_of_two_witness :
  rsqrt_exp (2 ^ 19) = 19 /\ rsqrt_seed (2 ^ 19) = read rsqrt_table 19.
Proof.
  apply (rsqrt_seed_at_power_of_two 19). lia.
Defined.

(** * memcpy *)

Section Memcpy.

Lemma store_same (m : memory) (a v : Z) : store m a v a = v.
Proof.
  unfold store. rewrite Z.eqb_refl. reflexivity.
Qed.

Lemma store_other (m : memory) (a v a' : Z) :
  a' <> a -> store m a v a' = m a'.
Proof.
  intros H. unfold store. destruct (Z.eqb_spec a' a); [contradiction|].
  reflexivity.
Qed.

Lemma add_1_no_wrap (a : Z) : 0 <= a -> a + 1 < 2 ^ 32 -> U32.add a 1 = a + 1.
Proof.
  intros H0 H1. unfold U32.add. apply wrap_small.
  rewrite in_range_bounds. lia.
Qed.

(** Bytes outside the destination keep their value. *)
Lemma memcpy_loop_frame (n : nat) :
  forall m d s a,
    0 <= d -> d + Z.of_nat n <= 2 ^ 32 ->
    ~ d <= a < d + Z.of_nat n ->
    memcpy_loop n m d s a = m a.
Proof.
  induction n as [|n IH]; intros m d s a Hd Hend Ha; [reflexivity|].
  cbn [memcpy_loop]. rewrite Nat2Z.inj_succ in *.
  destruct n as [|n'].
  - cbn [memcpy_loop]. apply store_other. lia.
  - rewrite (add_1_no_wrap d) by lia.
    rewrite IH by lia. apply store_other. lia.
Qed.

(** The successor of a residue. *)
Lemma mod_succ (j p : Z) :
  0 <= j -> 0 < p ->
  (j mod p = p - 1 /\ (j + 1) mod p = 0)
  \/ (j mod p < p - 1 /\ (j + 1) mod p = j mod p + 1).
Proof.
  intros Hj Hp.
  pose proof (Z.div_mod j p ltac:(lia)) as E.
  pose proof (Z.mod_pos_bound j p Hp) as Hm.
  assert (Hq : 0 <= j / p) by (apply Z.div_pos; lia).
  destruct (Z.eq_dec (j mod p) (p - 1)) as [Heq|Hne].
  - left. split; [assumption|].
    symmetry. apply (Z.mod_unique_pos _ _ (j / p + 1)); lia.
  - right. split; [lia|].
    symmetry. apply (Z.mod_unique_pos _ _ (j / p)); lia.
Qed.

(** Destination at or below the source: every byte is read before it can
    be overwritten. *)
Lemma memcpy_loop_backward (n : nat) :
  forall m d s i,
    0 <= d -> d <= s -> s + Z.of_nat n <= 2 ^ 32 ->
    0 <= i < Z.of_nat n ->
    memcpy_loop n m d s (d + i) = m (s + i).
Proof.
  induction n as [|n IH]; intros m d s i Hd Hds Hend Hi; [lia|].
  cbn [memcpy_loop]. rewrite Nat2Z.inj_succ in *.
  destruct (Z.eq_dec i 0) as [->|Hi0].
  - rewrite !Z.add_0_r.
    destruct n as [|n'].
    + cbn [memcpy_loop]. apply store_same.
    + rewrite (add_1_no_wrap d) by lia.
      rewrite memcpy_loop_frame by lia. apply store_same.
  - destruct n as [|n']; [lia|].
    rewrite (add_1_no_wrap d), (add_1_no_wrap s) by lia.
    replace (d + i) with (d + 1 + (i - 1)) by lia.
    rewrite IH by lia.
    rewrite store_other by lia. f_equal. lia.
Qed.

(** Destination above the source: the bytes already written are read
    again from [dest] on, so the first [dest - src] source bytes repeat. *)
Lemma memcpy_loop_forward (n : nat) :
  forall m d s i,
    0 <= s -> s < d -> d + Z.of_nat n <= 2 ^ 32 ->
    0 <= i < Z.of_nat n ->
    memcpy_loop n m d s (d + i) = m (s + i mod (d - s)).
Proof.
  induction n as [|n IH]; intros m d s i Hs Hsd Hend Hi; [lia|].
  cbn [memcpy_loop]. rewrite Nat2Z.inj_succ in *.
  destruct (Z.eq_dec i 0) as [->|Hi0].
  - rewrite Z.mod_0_l, !Z.add_0_r by lia.
    destruct n as [|n'].
    + cbn [memcpy_loop]. apply store_same.
    + rewrite (add_1_no_wrap d) by lia.
      rewrite memcpy_loop_frame by lia. apply store_same.
  - destruct n as [|n']; [lia|].
    rewrite (add_1_no_wrap d), (add_1_no_wrap s) by lia.
    replace (d + i) with (d + 1 + (i - 1)) by lia.
    rewrite IH by lia.
    replace (d + 1 - (s + 1)) with (d - s) by lia.
    pose proof (Z.mod_pos_bound (i - 1) (d - s) ltac:(lia)) as Hm.
    destruct (mod_succ (i - 1) (d - s) ltac:(lia) ltac:(lia))
      as [[Hlast Hnext]|[Hmid Hnext]];
      replace (i - 1 + 1) with i in Hnext by lia.
    + rewrite Hlast, Hnext.
      replace (s + 1 + (d - s - 1)) with d by lia.
      rewrite store_same. f_equal. lia.
    + rewrite Hnext. rewrite store_other by lia. f_equal. lia.
Qed.

End Memcpy.

(** X16.  When the destination does not start inside the source (it is at
    or below it, or at or past its end), [memcpy] makes the [n] bytes at
    [dest] equal to the [n] bytes that were at [src], and returns
    [dest]. *)
Theorem memcpy_copies (m : memory) (dest src n i : Z) :
  0 <= dest -> 0 <= src -> 0 <= n ->
  dest + n <= 2 ^ 32 -> src + n <= 2 ^ 32 ->
  dest <= src \/ src + n <= dest ->
  0 <= i < n ->
  fst (memcpy m dest src n) (dest + i) = m (src + i)
  /\ snd (memcpy m dest src n) = dest.
Proof.
  intros Hd Hs Hn Hde Hse Hov Hi. unfold memcpy. cbn [fst snd].
  split; [|reflexivity].
  destruct (Z_le_gt_dec dest src) as [Hle|Hgt].
  - apply memcpy_loop_backward; lia.
  - rewrite memcpy_loop_forward by lia.
    rewrite Z.mod_small by lia. reflexivity.
Qed.

Lemma memcpy_copies_witness :
  fst (memcpy (fun a => a mod 256) 4096 8192 16) (4096 + 5)
  = (fun a => a mod 256) (8192 + 5)
  /\ snd (memcpy (fun a => a mod 256) 4096 8192 16) = 4096.
Proof.
  apply (memcpy_copies (fun a => a mod 256) 4096 8192 16 5); lia.
Defined.

(** X17.  [memcpy] writes nowhere but to the [n] bytes at [dest]; with
    [n = 0] it changes nothing. *)
Theorem memcpy_frame (m : memory) (dest src n a : Z) :
  0 <= dest -> 0 <= n -> dest + n <= 2 ^ 32 ->
  ~ dest <= a < dest + n ->
  fst (memcpy m dest src n) a = m a.
Proof.
  intros Hd Hn Hde Ha. unfold memcpy. cbn [fst].
  apply memcpy_loop_frame; lia.
Qed.

Lemma memcpy_frame_witness :
  fst (memcpy (fun a => a mod 256) 4096 8192 16) 4112
  = (fun a => a mod 256) 4112.
Proof.
  apply (memcpy_frame (fun a => a mod 256) 4096 8192 16 4112); lia.
Defined.

(** X18.  When the destination starts above the source, the forward byte
    loop reads back what it wrote: byte [i] of the destination receives
    source byte [i mod (dest - src)], so an overlapping copy repeats the
    first [dest - src] source bytes instead of moving the block. *)
Theorem memcpy_overlap_repeats (m : memory) (dest src n i : Z) :
  0 <= src -> src < dest -> 0 <= n -> dest + n <= 2 ^ 32 ->
  0 <= i < n ->
  fst (memcpy m dest src n) (dest + i) = m (src + i mod (dest - src)).
Proof.
  intros Hs Hsd Hn Hde Hi. unfold memcpy. cbn [fst].
  apply memcpy_loop_forward; lia.
Qed.

Lemma memcpy_overlap_repeats_witness :
  fst (memcpy (fun a => a mod 256) 8195 8192 16) (8195 + 7)
  = (fun a => a mod 256) (8192 + 7 mod (8195 - 8192)).
Proof.
  apply (memcpy_overlap_repeats (fun a => a mod 256) 8195 8192 16 7); lia.
Defined.

(** * print_hex and print_dec *)

Section Buffer.

Lemma list_set_length (l : list Z) (i : nat) (c : Z) :
  length (list_set l i c) = length l.
Proof.
  revert i. induction l as [|h t IH]; intros i; [reflexivity|].
  destruct i; cbn; [reflexivity|]. rewrite IH. reflexivity.
Qed.

Lemma skipn_list_set (l : list Z) (i : nat) (c : Z) :
  (i < length l)%nat -> skipn i (list_set l i c) = c :: skipn (S i) l.
Proof.
  revert i. induction l as [|h t IH]; intros i Hi; [cbn in Hi; lia|].
  destruct i as [|i]; [reflexivity|].
  cbn [list_set skipn]. apply IH. cbn in Hi. lia.
Qed.

Lemma poke_in_bounds (buf : list Z) (p c : Z) :
  0 <= p < Z.of_nat (length buf) -> 0 <= c < 256 ->
  exists buf',
    poke buf p c = Some buf'
    /\ length buf' = length buf
    /\ skipn (Z.to_nat p) buf' = c :: skipn (Z.to_nat (p + 1)) buf.
Proof.
  intros Hp Hc. unfold poke, to_char.
  destruct (Z.leb_spec 0 p); [|lia].
  destruct (Z.ltb_spec p (Z.of_nat (length buf))); [|lia].
  cbn [andb]. rewrite Z.mod_small by assumption.
  eexists. split; [reflexivity|]. split; [apply list_set_length|].
  replace (Z.to_nat (p + 1)) with (S (Z.to_nat p)) by lia.
  apply skipn_list_set. lia.
Qed.

Lemma printstr_tail (buf : list Z) (p : Z) :
  0 <= p <= Z.of_nat (length buf) ->
  printstr buf p (Z.of_nat (length buf) - p) = Some (skipn (Z.to_nat p) buf).
Proof.
  intros Hp. unfold printstr.
  destruct (Z.leb_spec 0 p); [|lia].
  destruct (Z.leb_spec 0 (Z.of_nat (length buf) - p)); [|lia].
  destruct (Z.leb_spec (p + (Z.of_nat (length buf) - p))
              (Z.of_nat (length buf))); [|lia].
  cbn [andb]. f_equal. apply firstn_all2.
  rewrite length_skipn. lia.
Qed.

End Buffer.

Section DigitLoop.

Variable base : Z.
Variables char_of next ch : Z -> Z.
Variable digit_value : Z -> option Z.

Hypothesis base_range : 1 < base.
Hypothesis next_spec : forall v, 0 < v < 2 ^ 32 -> next v = v / base.
Hypothesis char_of_spec :
  forall v, 0 < v < 2 ^ 32 -> char_of v = ch (v mod base).
Hypothesis ch_range : forall d, 0 <= d < base -> 0 <= ch d < 256.
Hypothesis digit_value_ch :
  forall d, 0 <= d < base -> digit_value (ch d) = Some d.

Lemma digits_msb_0 (n : nat) : digits_msb base n 0 = [].
Proof.
  destruct n; reflexivity.
Qed.

Lemma div_base_bound (n : nat) (val : Z) :
  0 <= val < base ^ Z.of_nat (S n) -> 0 <= val / base < base ^ Z.of_nat n.
Proof.
  rewrite Nat2Z.inj_succ, Z.pow_succ_r by lia. intros Hv.
  split; [apply Z.div_pos; lia|apply Z.div_lt_upper_bound; lia].
Qed.

Lemma digits_msb_length (n : nat) :
  forall (k : nat) val,
    0 <= val < base ^ Z.of_nat k ->
    (length (digits_msb base n val) <= k)%nat.
Proof.
  induction n as [|n IH]; intros k val Hv; [cbn; lia|].
  cbn [digits_msb]. destruct (Z.eqb_spec val 0); [cbn; lia|].
  destruct k as [|k]; [change (base ^ Z.of_nat 0) with 1 in Hv; lia|].
  rewrite length_app. cbn [length].
  pose proof (IH k (val / base) (div_base_bound k val Hv)). lia.
Qed.

Lemma digits_msb_more (n : nat) :
  forall (k : nat) val,
    0 <= val < base ^ Z.of_nat k -> (k <= n)%nat ->
    digits_msb base n val = digits_msb base k val.
Proof.
  induction n as [|n IH]; intros k val Hv Hk.
  - assert (k = O) as -> by lia. reflexivity.
  - destruct k as [|k].
    + change (base ^ Z.of_nat 0) with 1 in Hv. assert (val = 0) as -> by lia.
      reflexivity.
    + cbn [digits_msb]. destruct (Z.eqb_spec val 0); [reflexivity|].
      rewrite (IH k); [reflexivity|apply div_base_bound; assumption|lia].
Qed.

Lemma digits_msb_head (n : nat) :
  forall val,
    0 < val < base ^ Z.of_nat n ->
    exists d rest, digits_msb base n val = d :: rest /\ 0 < d < base.
Proof.
  induction n as [|n IH]; intros val Hv.
  - change (base ^ Z.of_nat 0) with 1 in Hv. lia.
  - cbn [digits_msb]. destruct (Z.eqb_spec val 0); [lia|].
    destruct (Z.eq_dec (val / base) 0) as [E0|Hq].
    + rewrite E0, digits_msb_0. cbn [app].
      exists (val mod base), []. split; [reflexivity|].
      pose proof (Z.div_mod val base ltac:(lia)).
      pose proof (Z.mod_pos_bound val base ltac:(lia)). nia.
    + destruct (div_base_bound n val ltac:(lia)) as [Hq0 Hq1].
      destruct (IH (val / base) ltac:(lia)) as (d & rest & E & Hd).
      rewrite E. exists d, (rest ++ [val mod base]).
      split; [reflexivity|assumption].
Qed.

Lemma parse_digits_snoc (s : list Z) (c : Z) :
  parse_digits base digit_value (s ++ [c])
  = (a <- parse_digits base digit_value s ;;
     d <- digit_value c ;; Some (a * base + d)).
Proof.
  unfold parse_digits. rewrite fold_left_app. reflexivity.
Qed.

Lemma parse_digits_msb (n : nat) :
  forall val,
    0 <= val < base ^ Z.of_nat n ->
    parse_digits base digit_value (map ch (digits_msb base n val))
    = Some val.
Proof.
  induction n as [|n IH]; intros val Hv.
  - change (base ^ Z.of_nat 0) with 1 in Hv. assert (val = 0) as -> by lia.
    reflexivity.
  - cbn [digits_msb]. destruct (Z.eqb_spec val 0) as [->|Hnz]; [reflexivity|].
    rewrite map_app. cbn [map]. rewrite parse_digits_snoc.
    rewrite IH by (apply div_base_bound; assumption). cbn [bind].
    rewrite digit_value_ch by (apply Z.mod_pos_bound; lia). cbn [bind].
    f_equal. pose proof (Z.div_mod val base ltac:(lia)). lia.
Qed.

(** The loop prepends the digits of [val] to the filled tail of the
    buffer and moves [p] down by their number. *)
Lemma digit_loop_spec (fuel : nat) :
  forall buf p val,
    0 <= val < 2 ^ 32 -> val < base ^ Z.of_nat fuel ->
    Z.of_nat (length (digits_msb base fuel val)) <= p + 1 ->
    p < Z.of_nat (length buf) ->
    exists buf',
      digit_loop char_of next fuel buf p val
      = Some (buf', p - Z.of_nat (length (digits_msb base fuel val)))
      /\ length buf' = length buf
      /\ skipn (Z.to_nat (p + 1
                          - Z.of_nat (length (digits_msb base fuel val))))
           buf'
         = map ch (digits_msb base fuel val) ++ skipn (Z.to_nat (p + 1)) buf.
Proof.
  induction fuel as [|fuel IH]; intros buf p val Hv Hf Hlen Hp.
  - change (base ^ Z.of_nat 0) with 1 in Hf. assert (val = 0) as -> by lia.
    exists buf. cbn. rewrite !Z.sub_0_r. repeat split.
  - cbn [digit_loop digits_msb] in *.
    destruct (Z.eqb_spec val 0) as [->|Hnz].
    { exists buf. cbn. rewrite !Z.sub_0_r. repeat split. }
    destruct (Z.gtb_spec val 0) as [Hpos|]; [|lia].
    rewrite length_app in *. cbn [length] in *.
    set (ds := digits_msb base fuel (val / base)) in *.
    pose proof (Z.mod_pos_bound val base ltac:(lia)) as Hd.
    destruct (poke_in_bounds buf p (ch (val mod base)) ltac:(lia)
                (ch_range _ Hd)) as (buf1 & E1 & L1 & S1).
    rewrite char_of_spec, next_spec, E1 by lia. cbn [bind].
    destruct (div_base_bound fuel val ltac:(lia)) as [Hq0 Hq1].
    assert (Hq32 : val / base < 2 ^ 32).
    { apply Z.div_lt_upper_bound; nia. }
    destruct (IH buf1 (p - 1) (val / base) ltac:(lia) Hq1)
      as (buf' & E' & L' & S'); [fold ds; lia|lia|].
    fold ds in E', S'.
    exists buf'. split; [|split].
    + rewrite E'. f_equal. f_equal. lia.
    + congruence.
    + replace (p + 1 - Z.of_nat (length ds + 1))
        with (p - 1 + 1 - Z.of_nat (length ds)) by lia.
      rewrite S'. replace (p - 1 + 1) with p by lia.
      rewrite S1, map_app, <- app_assoc. reflexivity.
Qed.

End DigitLoop.

Section Printing.

Lemma hex_char_range (d : Z) : 0 <= d < 16 -> 0 <= hex_char d < 256.
Proof.
  intros Hd. unfold hex_char. destruct (Z.ltb_spec d 10); lia.
Qed.

Lemma hex_digit_value_char (d : Z) :
  0 <= d < 16 -> hex_digit_value (hex_char d) = Some d.
Proof.
  intros Hd. unfold hex_char, hex_digit_value.
  destruct (Z.ltb_spec d 10).
  - destruct (Z.leb_spec 48 (48 + d)); [|lia].
    destruct (Z.leb_spec (48 + d) 57); [|lia].
    cbn [andb]. f_equal. lia.
  - destruct (Z.leb_spec (97 + d - 10) 57); [lia|].
    rewrite andb_false_r.
    destruct (Z.leb_spec 97 (97 + d - 10)); [|lia].
    destruct (Z.leb_spec (97 + d - 10) 102); [|lia].
    cbn [andb]. f_equal. lia.
Qed.

Lemma dec_char_range (d : Z) : 0 <= d < 10 -> 0 <= dec_char d < 256.
Proof.
  unfold dec_char. lia.
Qed.

Lemma dec_digit_value_char (d : Z) :
  0 <= d < 10 -> dec_digit_value (dec_char d) = Some d.
Proof.
  intros Hd. unfold dec_char, dec_digit_value.
  destruct (Z.leb_spec 48 (48 + d)); [|lia].
  destruct (Z.leb_spec (48 + d) 57); [|lia].
  cbn [andb]. f_equal. lia.
Qed.

Lemma print_hex_loop_digit_loop (fuel : nat) :
  forall buf p val,
    print_hex_loop fuel buf p val
    = digit_loop (fun v => hex_char (Z.land v 0xf)) (fun v => U32.shr v 4)
        fuel buf p val.
Proof.
  induction fuel as [|fuel IH]; intros buf p val; [reflexivity|].
  cbn [print_hex_loop digit_loop]. destruct (val >? 0); [|reflexivity].
  unfold hex_char. destruct (poke buf p _); [|reflexivity].
  cbn [bind]. apply IH.
Qed.

Lemma print_dec_loop_digit_loop (fuel : nat) :
  forall buf p val,
    print_dec_loop fuel buf p val
    = digit_loop (fun v => 48 + umod v 10) (fun v => udiv v 10)
        fuel buf p val.
Proof.
  induction fuel as [|fuel IH]; intros buf p val; [reflexivity|].
  cbn [print_dec_loop digit_loop]. destruct (val >? 0); [|reflexivity].
  destruct (poke buf p _); [|reflexivity].
  cbn [bind]. apply IH.
Qed.

Lemma hex_step (v : Z) :
  0 < v < 2 ^ 32 ->
  U32.shr v 4 = v / 16 /\ hex_char (Z.land v 0xf) = hex_char (v mod 16).
Proof.
  intros Hv. split.
  - rewrite shr_div by lia. reflexivity.
  - change 0xf with (Z.ones 4). rewrite Z.land_ones by lia. reflexivity.
Qed.

Lemma dec_step (v : Z) :
  0 < v < 2 ^ 32 ->
  udiv v 10 = v / 10 /\ 48 + umod v 10 = dec_char (v mod 10).
Proof.
  intros Hv.
  rewrite udiv_div, umod_mod by (rewrite ?in_range_bounds; lia).
  split; reflexivity.
Qed.

(** The code around the loop: the newline goes to the last byte, the
    digits are put before it, and the tail from the first digit on is
    printed. *)
Lemma print_tail (buf : list Z) (ds : list Z)
  (body : list Z -> Z -> option (list Z * Z)) :
  length buf = 20%nat ->
  (1 <= length ds <= 19)%nat ->
  (forall buf1,
     length buf1 = 20%nat ->
     exists buf',
       body buf1 18 = Some (buf', 18 - Z.of_nat (length ds))
       /\ length buf' = 20%nat
       /\ skipn (Z.to_nat (19 - Z.of_nat (length ds))) buf'
          = ds ++ skipn 19 buf1) ->
  (buf1 <- poke buf (buf_size - 1) 10 ;;
   st <- body buf1 (buf_size - 1 - 1) ;;
   printstr (fst st) (snd st + 1) (buf_size - (snd st + 1)))
  = Some (ds ++ [10]).
Proof.
  intros Hlen Hds Hbody. change (buf_size - 1 - 1) with 18.
  change (buf_size - 1) with 19.
  destruct (poke_in_bounds buf 19 10) as (buf1 & E1 & L1 & S1);
    [rewrite Hlen; lia|lia|].
  rewrite E1. cbn [bind].
  assert (Hnl : skipn 19 buf1 = [10]).
  { change 19%nat with (Z.to_nat 19). rewrite S1.
    rewrite skipn_all2 by (rewrite Hlen; lia). reflexivity. }
  destruct (Hbody buf1 ltac:(congruence)) as (buf' & E' & L' & S').
  rewrite E'. cbn [bind fst snd].
  replace buf_size with (Z.of_nat (length buf'))
    by (rewrite L'; reflexivity).
  rewrite printstr_tail by (rewrite L'; lia).
  f_equal.
  replace (18 - Z.of_nat (length ds) + 1) with (19 - Z.of_nat (length ds))
    by lia.
  rewrite S', Hnl. reflexivity.
Qed.

Lemma print_zero_body (buf1 : list Z) :
  length buf1 = 20%nat ->
  exists buf',
    (buf <- poke buf1 18 48 ;; Some (buf, 18 - 1))
    = Some (buf', 18 - Z.of_nat (length [48]))
    /\ length buf' = 20%nat
    /\ skipn (Z.to_nat (19 - Z.of_nat (length [48]))) buf'
       = [48] ++ skipn 19 buf1.
Proof.
  intros L1.
  destruct (poke_in_bounds buf1 18 48) as (buf2 & E2 & L2 & S2);
    [rewrite L1; lia|lia|].
  exists buf2. rewrite E2. cbn [bind].
  split; [reflexivity|]. split; [congruence|]. exact S2.
Qed.

Lemma print_hex_value (buf : list Z) (val : Z) :
  U32.in_range val -> length buf = 20%nat ->
  print_hex buf val
  = Some ((if val =? 0 then [48] else map hex_char (digits_msb 16 8 val))
          ++ [10]).
Proof.
  rewrite in_range_bounds. intros Hv Hlen. unfold print_hex. cbv zeta.
  destruct (Z.eqb_spec val 0) as [->|Hnz].
  - apply (print_tail buf [48] (fun b p => b' <- poke b p 48 ;; Some (b', p - 1)));
      [assumption|cbn; lia|apply print_zero_body].
  - assert (H8 : 0 <= val < 16 ^ Z.of_nat 8)
      by (change (Z.of_nat 8) with 8; lia).
    pose proof (digits_msb_length 16 ltac:(lia) 8 8 val H8) as Hl8.
    destruct (digits_msb_head 16 ltac:(lia) 8 val ltac:(lia))
      as (d & rest & Eds & _).
    assert (Hl1 : (1 <= length (digits_msb 16 8 val))%nat)
      by (rewrite Eds; cbn; lia).
    apply (print_tail buf (map hex_char (digits_msb 16 8 val))
             (fun b p => print_hex_loop print_fuel b p val));
      [assumption|rewrite length_map; lia|].
    intros buf1 L1. rewrite print_hex_loop_digit_loop, length_map.
    unfold print_fuel.
    rewrite <- (digits_msb_more 16 ltac:(lia) 32 8 val H8 ltac:(lia)).
    destruct (digit_loop_spec 16 (fun v => hex_char (Z.land v 0xf))
                (fun v => U32.shr v 4) hex_char ltac:(lia)
                (fun v Hv' => proj1 (hex_step v Hv'))
                (fun v Hv' => proj2 (hex_step v Hv'))
                hex_char_range 32 buf1 18 val Hv)
      as (buf' & E' & L' & S').
    + change (Z.of_nat 32) with 32. lia.
    + rewrite (digits_msb_more 16 ltac:(lia) 32 8 val H8 ltac:(lia)). lia.
    + rewrite L1. lia.
    + exists buf'. split; [exact E'|]. split; [congruence|].
      replace (19 - Z.of_nat (length (digits_msb 16 32 val)))
        with (18 + 1 - Z.of_nat (length (digits_msb 16 32 val))) by lia.
      exact S'.
Qed.

Lemma print_dec_value (buf : list Z) (val : Z) :
  U32.in_range val -> length buf = 20%nat ->
  print_dec buf val
  = Some ((if val =? 0 then [48] else map dec_char (digits_msb 10 10 val))
          ++ [10]).
Proof.
  rewrite in_range_bounds. intros Hv Hlen. unfold print_dec. cbv zeta.
  destruct (Z.eqb_spec val 0) as [->|Hnz].
  - apply (print_tail buf [48] (fun b p => b' <- poke b p 48 ;; Some (b', p - 1)));
      [assumption|cbn; lia|apply print_zero_body].
  - assert (H10 : 0 <= val < 10 ^ Z.of_nat 10)
      by (change (Z.of_nat 10) with 10; lia).
    pose proof (digits_msb_length 10 ltac:(lia) 10 10 val H10) as Hl10.
    destruct (digits_msb_head 10 ltac:(lia) 10 val ltac:(lia))
      as (d & rest & Eds & _).
    assert (Hl1 : (1 <= length (digits_msb 10 10 val))%nat)
      by (rewrite Eds; cbn; lia).
    apply (print_tail buf (map dec_char (digits_msb 10 10 val))
             (fun b p => print_dec_loop print_fuel b p val));
      [assumption|rewrite length_map; lia|].
    intros buf1 L1. rewrite print_dec_loop_digit_loop, length_map.
    unfold print_fuel.
    rewrite <- (digits_msb_more 10 ltac:(lia) 32 10 val H10 ltac:(lia)).
    destruct (digit_loop_spec 10 (fun v => 48 + umod v 10)
                (fun v => udiv v 10) dec_char ltac:(lia)
                (fun v Hv' => proj1 (dec_step v Hv'))
                (fun v Hv' => proj2 (dec_step v Hv'))
                dec_char_range 32 buf1 18 val Hv)
      as (buf' & E' & L' & S').
    + change (Z.of_nat 32) with 32. lia.
    + rewrite (digits_msb_more 10 ltac:(lia) 32 10 val H10 ltac:(lia)). lia.
    + rewrite L1. lia.
    + exists buf'. split; [exact E'|]. split; [congruence|].
      replace (19 - Z.of_nat (length (digits_msb 10 32 val)))
        with (18 + 1 - Z.of_nat (length (digits_msb 10 32 val))) by lia.
      exact S'.
Qed.

End Printing.

(** X19.  Whatever the 20-byte buffer holds on entry, [print_hex] stays
    inside it and prints the hexadecimal digits of [val], most significant
    first, in lower case, with no leading zero (a single 0 for 0), and
    then a newline: at most 9 bytes. *)
Theorem print_hex_output (buf : list Z) (val : Z) :
  U32.in_range val -> length buf = 20%nat ->
  let numeral :=
    if val =? 0 then [48] else map hex_char (digits_msb 16 8 val) in
  print_hex buf val = Some (numeral ++ [10])
  /\ (1 <= length numeral <= 8)%nat.
Proof.
  intros Hv Hlen. cbv zeta. split; [apply print_hex_value; assumption|].
  rewrite in_range_bounds in Hv.
  destruct (Z.eqb_spec val 0); [cbn; lia|].
  rewrite length_map.
  assert (H8 : 0 <= val < 16 ^ Z.of_nat 8)
      by (change (Z.of_nat 8) with 8; lia).
  pose proof (digits_msb_length 16 ltac:(lia) 8 8 val H8).
  destruct (digits_msb_head 16 ltac:(lia) 8 val ltac:(lia))
    as (d & rest & Eds & _).
  rewrite Eds in *. cbn [length] in *. lia.
Qed.

Lemma print_hex_output_witness :
  print_hex (repeat 255 20) 48879 = Some ([98; 101; 101; 102] ++ [10])
  /\ (1 <= length [98; 101; 101; 102] <= 8)%nat.
Proof.
  apply (print_hex_output (repeat 255 20) 48879);
    [rewrite in_range_bounds; lia|reflexivity].
Defined.

(** X20.  Reading back what [print_hex] prints gives [val]: the bytes
    before the newline are hexadecimal digits whose value is [val], and
    the first one is not ['0'] unless [val] is 0. *)
Theorem print_hex_roundtrip (buf : list Z) (val : Z) :
  U32.in_range val -> length buf = 20%nat ->
  exists ds,
    print_hex buf val = Some (ds ++ [10])
    /\ parse_digits 16 hex_digit_value ds = Some val
    /\ (val <> 0 -> hd 48 ds <> 48).
Proof.
  intros Hv Hlen. rewrite (print_hex_value buf val Hv Hlen).
  rewrite in_range_bounds in Hv.
  eexists. split; [reflexivity|].
  destruct (Z.eqb_spec val 0) as [->|Hnz].
  - split; [reflexivity|contradiction].
  - assert (H8 : 0 <= val < 16 ^ Z.of_nat 8)
      by (change (Z.of_nat 8) with 8; lia).
    split.
    + apply (parse_digits_msb 16 hex_char hex_digit_value ltac:(lia)
               hex_digit_value_char 8 val H8).
    + intros _.
      destruct (digits_msb_head 16 ltac:(lia) 8 val ltac:(lia))
        as (d & rest & Eds & Hd).
      rewrite Eds. cbn [map hd]. unfold hex_char.
      destruct (Z.ltb_spec d 10); lia.
Qed.

Lemma print_hex_roundtrip_witness :
  exists ds,
    print_hex (repeat 0 20) 4294967295 = Some (ds ++ [10])
    /\ parse_digits 16 hex_digit_value ds = Some 4294967295
    /\ hd 48 ds <> 48.
Proof.
  assert (Hr : U32.in_range 4294967295) by (rewrite in_range_bounds; lia).
  destruct (print_hex_roundtrip (repeat 0 20) 4294967295 Hr eq_refl)
    as (ds & E & P & H).
  exists ds. split; [exact E|]. split; [exact P|]. apply H. lia.
Defined.

(** X21.  Whatever the 20-byte buffer holds on entry, [print_dec] stays
    inside it and prints the decimal digits of [val], most significant
    first, with no leading zero (a single 0 for 0), and then a newline: at
    most 11 bytes.  The digits come from [umod] and [udiv] by 10. *)
Theorem print_dec_output (buf : list Z) (val : Z) :
  U32.in_range val -> length buf = 20%nat ->
  let numeral :=
    if val =? 0 then [48] else map dec_char (digits_msb 10 10 val) in
  print_dec buf val = Some (numeral ++ [10])
  /\ (1 <= length numeral <= 10)%nat.
Proof.
  intros Hv Hlen. cbv zeta. split; [apply print_dec_value; assumption|].
  rewrite in_range_bounds in Hv.
  destruct (Z.eqb_spec val 0); [cbn; lia|].
  rewrite length_map.
  assert (H10 : 0 <= val < 10 ^ Z.of_nat 10)
      by (change (Z.of_nat 10) with 10; lia).
  pose proof (digits_msb_length 10 ltac:(lia) 10 10 val H10).
  destruct (digits_msb_head 10 ltac:(lia) 10 val ltac:(lia))
    as (d & rest & Eds & _).
  rewrite Eds in *. cbn [length] in *. lia.
Qed.

Lemma print_dec_output_witness :
  print_dec (repeat 255 20) 5352 = Some ([53; 51; 53; 50] ++ [10])
  /\ (1 <= length [53; 51; 53; 50] <= 10)%nat.
Proof.
  apply (print_dec_output (repeat 255 20) 5352);
    [rewrite in_range_bounds; lia|reflexivity].
Defined.

(** X22.  Reading back what [print_dec] prints gives [val]: the bytes
    before the newline are decimal digits whose value is [val], and the
    first one is not ['0'] unless [val] is 0. *)
Theorem print_dec_roundtrip (buf : list Z) (val : Z) :
  U32.in_range val -> length buf = 20%nat ->
  exists ds,
    print_dec buf val = Some (ds ++ [10])
    /\ parse_digits 10 dec_digit_value ds = Some val
    /\ (val <> 0 -> hd 48 ds <> 48).
Proof.
  intros Hv Hlen. rewrite (print_dec_value buf val Hv Hlen).
  rewrite in_range_bounds in Hv.
  eexists. split; [reflexivity|].
  destruct (Z.eqb_spec val 0) as [->|Hnz].
  - split; [reflexivity|contradiction].
  - assert (H10 : 0 <= val < 10 ^ Z.of_nat 10)
      by (change (Z.of_nat 10) with 10; lia).
    split.
    + apply (parse_digits_msb 10 dec_char dec_digit_value ltac:(lia)
               dec_digit_value_char 10 val H10).
    + intros _.
      destruct (digits_msb_head 10 ltac:(lia) 10 val ltac:(lia))
        as (d & rest & Eds & Hd).
      rewrite Eds. cbn [map hd]. unfold dec_char. lia.
Qed.

Lemma print_dec_roundtrip_witness :
  exists ds,
    print_dec (repeat 0 20) 4294967295 = Some (ds ++ [10])
    /\ parse_digits 10 dec_digit_value ds = Some 4294967295
    /\ hd 48 ds <> 48.
Proof.
  assert (Hr : U32.in_range 4294967295) by (rewrite in_range_bounds; lia).
  destruct (print_dec_roundtrip (repeat 0 20) 4294967295 Hr eq_refl)
    as (ds & E & P & H).
  exists ds. split; [exact E|]. split; [exact P|]. apply H. lia.
Defined.

(** * The estimate never rises by more than one unit *)

Section Rises.

Lemma rsqrt_table_antitone (i j a b : Z) :
  0 <= i -> i <= j -> j <= 31 ->
  read rsqrt_table i = Some a -> read rsqrt_table j = Some b -> b <= a.
Proof.
  intros Hi Hij Hj Ea Eb.
  assert (Hall : forallb
            (fun p => forallb
               (fun q => (q <? p)
                         || match read rsqrt_table p, read rsqrt_table q with
                            | Some u, Some v => v <=? u
                            | _, _ => false
                            end)
               (map Z.of_nat (seq 0 32)))
            (map Z.of_nat (seq 0 32)) = true) by (vm_compute; reflexivity).
  assert (Hin : forall k, 0 <= k <= 31 -> In k (map Z.of_nat (seq 0 32))).
  { intros k Hk. apply in_map_iff. exists (Z.to_nat k).
    split; [lia|]. apply in_seq. lia. }
  rewrite forallb_forall in Hall.
  specialize (Hall i (Hin i ltac:(lia))).
  rewrite forallb_forall in Hall.
  specialize (Hall j (Hin j ltac:(lia))).
  rewrite Ea, Eb in Hall.
  destruct (Z.ltb_spec j i); [lia|]. cbn [orb] in Hall.
  apply Z.leb_le. exact Hall.
Qed.

(** The seed never increases with the input. *)
Lemma rsqrt_seed_antitone (x1 x2 y1 y2 : Z) :
  0 < x1 -> x1 <= x2 -> x2 < 2 ^ 32 ->
  rsqrt_seed x1 = Some y1 -> rsqrt_seed x2 = Some y2 -> y2 <= y1.
Proof.
  intros H1 H12 H2 E1 E2.
  destruct (rsqrt_bucket x1 ltac:(lia)) as [He1 Hb1].
  destruct (rsqrt_bucket x2 ltac:(lia)) as [He2 Hb2].
  destruct (bucket_facts _ He1) as (yb1 & yn1 & Eb1 & En1 & Hyn1 & _).
  destruct (bucket_facts _ He2) as (yb2 & yn2 & Eb2 & En2 & Hyn2 & _).
  destruct (rsqrt_seed_value x1 yb1 yn1 ltac:(lia) Eb1 En1) as [S1 R1].
  destruct (rsqrt_seed_value x2 yb2 yn2 ltac:(lia) Eb2 En2) as [S2 R2].
  cbv zeta in S1, R1, S2, R2.
  assert (Hle : rsqrt_exp x1 <= rsqrt_exp x2).
  { rewrite !rsqrt_exp_log2 by lia. apply Z.log2_le_mono. assumption. }
  match type of R1 with _ <= ?s <= _ => assert (Es1 : y1 = s) by congruence end.
  match type of R2 with _ <= ?s <= _ => assert (Es2 : y2 = s) by congruence end.
  destruct (Z.eq_dec (rsqrt_exp x1) (rsqrt_exp x2)) as [Eq|Hne].
  - rewrite <- Eq in *.
    assert (yb2 = yb1) by congruence. assert (yn2 = yn1) by congruence.
    subst yb2 yn2.
    set (e := rsqrt_exp x1) in *.
    assert (Hpe : 0 < 2 ^ e) by (apply Z.pow_pos_nonneg; lia).
    assert (Hf : (x1 - 2 ^ e) * 2 ^ 16 / 2 ^ e
                 <= (x2 - 2 ^ e) * 2 ^ 16 / 2 ^ e).
    { apply Z.div_le_mono; lia. }
    assert (Hf0 : 0 <= (x1 - 2 ^ e) * 2 ^ 16 / 2 ^ e).
    { apply Z.div_pos; lia. }
    assert (Hq : (yb1 - yn1) * ((x1 - 2 ^ e) * 2 ^ 16 / 2 ^ e) / 2 ^ 16
                 <= (yb1 - yn1) * ((x2 - 2 ^ e) * 2 ^ 16 / 2 ^ e) / 2 ^ 16).
    { apply Z.div_le_mono; [lia|].
      apply Z.mul_le_mono_nonneg_l; lia. }
    lia.
  - assert (Hlt : rsqrt_exp x1 < 31) by lia.
    destruct (rsqrt_y_next_defined _ He1) as (Hn & _ & _).
    rewrite (Hn Hlt) in En1.
    pose proof (rsqrt_table_antitone (rsqrt_exp x1 + 1) (rsqrt_exp x2)
                  yn1 yb2 ltac:(lia) ltac:(lia) ltac:(lia) En1 Eb2).
    lia.
Qed.

(** For a fixed seed the Newton step never increases with the input. *)
Lemma newton_value_antitone (y x1 x2 : Z) :
  0 <= y -> 0 <= x1 -> x1 <= x2 -> newton_value y x2 <= newton_value y x1.
Proof.
  intros Hy H1 H12. unfold newton_value.
  apply Z.div_le_mono; [lia|].
  assert (Hq : x1 * y * y / 2 ^ 16 <= x2 * y * y / 2 ^ 16).
  { apply Z.div_le_mono; [lia|].
    rewrite <- !Z.mul_assoc. apply Z.mul_le_mono_nonneg_r; nia. }
  assert (y * (3 * 2 ^ 16 - x2 * y * y / 2 ^ 16)
          <= y * (3 * 2 ^ 16 - x1 * y * y / 2 ^ 16)); [|lia].
  apply Z.mul_le_mono_nonneg_l; lia.
Qed.

Lemma rsqrt_newton_value (x y : Z) :
  0 < x < 2 ^ 32 - 1 -> rsqrt_seed x = Some y ->
  0 <= y /\ rsqrt x = Some (newton_value y x).
Proof.
  intros Hx Ey.
  destruct (rsqrt_newton_no_wrap x y ltac:(lia) Ey) as (Hy & _ & En & _).
  split; [lia|].
  rewrite rsqrt_general, Ey by assumption. cbn [bind].
  rewrite En. reflexivity.
Qed.

Lemma same_seed_true (a b : Z) :
  same_seed a b = true ->
  exists y, rsqrt_seed a = Some y /\ rsqrt_seed b = Some y.
Proof.
  unfold same_seed. intros H.
  destruct (rsqrt_seed a) as [y|]; [|discriminate].
  destruct (rsqrt_seed b) as [y'|]; [|discriminate].
  apply Z.eqb_eq in H. subst y'. exists y. split; reflexivity.
Qed.

(** Between two inputs that have the same seed, the estimate is
    antitone. *)
Lemma rsqrt_antitone_on_run (a b x1 x2 r1 r2 : Z) :
  0 < a -> b < 2 ^ 32 - 1 -> same_seed a b = true ->
  a <= x1 -> x1 <= x2 -> x2 <= b ->
  rsqrt x1 = Some r1 -> rsqrt x2 = Some r2 -> r2 <= r1.
Proof.
  intros Ha Hb Hs Hax H12 Hxb E1 E2.
  destruct (same_seed_true a b Hs) as (y & Eya & Eyb).
  assert (Hrun : forall x, a <= x <= b -> rsqrt_seed x = Some y).
  { intros x Hx.
    destruct (rsqrt_seed_defined x ltac:(lia)) as [yx Eyx].
    pose proof (rsqrt_seed_antitone a x y yx ltac:(lia) ltac:(lia)
                  ltac:(lia) Eya Eyx).
    pose proof (rsqrt_seed_antitone x b yx y ltac:(lia) ltac:(lia)
                  ltac:(lia) Eyx Eyb).
    rewrite Eyx. f_equal. lia. }
  destruct (rsqrt_newton_value x1 y ltac:(lia) (Hrun x1 ltac:(lia)))
    as [Hy N1].
  destruct (rsqrt_newton_value x2 y ltac:(lia) (Hrun x2 ltac:(lia)))
    as [_ N2].
  rewrite N1 in E1. rewrite N2 in E2.
  injection E1 as <-. injection E2 as <-.
  apply newton_value_antitone; lia.
Qed.

Lemma run_end_spec (a last : Z) :
  0 < a -> a <= last -> last < 2 ^ 32 ->
  a <= run_end a last <= last /\ same_seed a (run_end a last) = true.
Proof.
  intros Ha Hal Hl.
  assert (Haa : same_seed a a = true).
  { unfold same_seed.
    destruct (rsqrt_seed_defined a ltac:(lia)) as [y ->].
    apply Z.eqb_refl. }
  unfold run_end. cbv zeta.
  pose proof (Z.le_min_l last (seed_run_end a)) as Hmin.
  set (b := Z.min last (seed_run_end a)) in *.
  destruct (Z.leb_spec a b); [|split; [lia|assumption]].
  destruct (same_seed a b) eqn:Hs; [|split; [lia|assumption]].
  split; [lia|first [exact Hs|reflexivity]].
Qed.

Lemma rise_walk_sound (last : Z) (fuel : nat) :
  last < 2 ^ 32 - 1 ->
  forall a m,
    rise_walk fuel a last m = true ->
    0 < a ->
    (forall x r, 0 < x < a -> rsqrt x = Some r -> m <= r) ->
    forall x1 x2 r1 r2,
      0 < x1 -> x1 < x2 -> a <= x2 <= last ->
      rsqrt x1 = Some r1 -> rsqrt x2 = Some r2 -> r2 <= r1 + 1.
Proof.
  intros Hlast. induction fuel as [|fuel IH];
    intros a m Hw Ha Hm x1 x2 r1 r2 H1 H12 H2 E1 E2;
    cbn [rise_walk] in Hw;
    (destruct (Z.ltb_spec last a); [lia|]); [discriminate|].
  cbv zeta in Hw.
  destruct (run_end_spec a last Ha ltac:(lia) ltac:(lia)) as [Hb Hs].
  set (b := run_end a last) in *.
  destruct (rsqrt a) as [ra|] eqn:Era; [|discriminate].
  destruct (rsqrt b) as [rb|] eqn:Erb; [|discriminate].
  apply andb_true_iff in Hw. destruct Hw as [Hra Hw].
  apply Z.leb_le in Hra.
  destruct (Z_le_gt_dec x2 b) as [Hin|Hout].
  - destruct (Z_lt_le_dec x1 a) as [Hbefore|Hinside].
    + pose proof (Hm x1 r1 ltac:(lia) E1).
      pose proof (rsqrt_antitone_on_run a b a x2 ra r2 Ha ltac:(lia) Hs
                    ltac:(lia) ltac:(lia) ltac:(lia) Era E2).
      lia.
    + pose proof (rsqrt_antitone_on_run a b x1 x2 r1 r2 Ha ltac:(lia) Hs
                    ltac:(lia) ltac:(lia) ltac:(lia) E1 E2).
      lia.
  - apply (IH (b + 1) (Z.min m rb) Hw ltac:(lia)) with (x1 := x1) (x2 := x2);
      try assumption; try lia.
    intros x r Hx Er.
    destruct (Z_lt_le_dec x a) as [Hbefore|Hinside].
    + pose proof (Hm x r ltac:(lia) Er). lia.
    + pose proof (rsqrt_antitone_on_run a b x b r rb Ha ltac:(lia) Hs
                    ltac:(lia) ltac:(lia) ltac:(lia) Er Erb).
      lia.
Qed.

End Rises.

(** C3, amended.  [rsqrt] is antitone up to one unit on the interior of
    the domain: for [0 < x1 < x2 < 0xFFFFFFFF], both estimates exist and
    [rsqrt x1 + 1 >= rsqrt x2]. *)
Theorem rsqrt_antitone_within_one (x1 x2 : Z) :
  0 < x1 -> x1 < x2 -> x2 < 0xFFFFFFFF ->
  exists y1 y2, rsqrt x1 = Some y1 /\ rsqrt x2 = Some y2 /\ y1 + 1 >= y2.
Proof.
  intros H1 H12 H2.
  destruct (rsqrt_defined x1) as (y1 & E1 & _); [rewrite in_range_bounds; lia|].
  destruct (rsqrt_defined x2) as (y2 & E2 & _); [rewrite in_range_bounds; lia|].
  exists y1, y2. split; [exact E1|]. split; [exact E2|].
  assert (Hw : rise_walk (Z.to_nat 4096) 1 (2 ^ 32 - 2) (2 ^ 32) = true)
    by (vm_compute; reflexivity).
  assert (Hle : y2 <= y1 + 1); [|lia].
  apply (rise_walk_sound (2 ^ 32 - 2) (Z.to_nat 4096) ltac:(lia)
           1 (2 ^ 32) Hw ltac:(lia)) with (x1 := x1) (x2 := x2);
    try assumption; try lia.
Qed.

Lemma rsqrt_antitone_within_one_witness :
  exists y1 y2,
    rsqrt 5352 = Some y1 /\ rsqrt 5353 = Some y2 /\ y1 + 1 >= y2.
Proof.
  apply (rsqrt_antitone_within_one 5352 5353); lia.
Defined.
